(** * Lummao: the LSL-to-Python generator of [src/lummao.cc]

    A shallow embedding of [PythonVisitor] and of [main], and the
    properties of the emitted text.

    The visitor of the source appends to one string stream ([mStr]) and
    keeps an indentation depth ([mTabs]); both are fields of the state
    that every [visit] threads here.  What the source can only do wrong
    (a failed [assert], a null pointer, a cast to the wrong node class, a
    float-to-integer conversion out of range) is a [Fault]. *)

From Stdlib Require Import ZArith QArith Qround List String Ascii Bool Lia.
From Stdlib Require Import DecimalString DecimalZ.
Import ListNotations.

Local Open Scope string_scope.
Local Open Scope Z_scope.

(** ** Printing numbers *)

(** [operator<<] on a signed integer ([int], [int64_t], [S32]): the decimal
    digits, with a leading minus sign for a negative value. *)
Definition dec (n : Z) : string := NilZero.string_of_int (Z.to_int n).

(** Reading a decimal integer back. *)
Definition undec (s : string) : option Z :=
  option_map Z.of_int (NilZero.int_of_string s).

(** The digits of [%x]. *)
Definition hex_digits : string := "0123456789abcdef".

(** One digit of [%x]: the digit at position [n]. *)
Definition hex_digit (n : Z) : ascii :=
  match String.get (Z.to_nat n) hex_digits with
  | Some c => c
  | None => "?"%char
  end.

(** [%02x] on a [uint8_t]. *)
Definition hex2 (b : Z) : string :=
  String (hex_digit (b / 16)) (String (hex_digit (b mod 16)) "").

(** The value of a digit of [%x]: its position among the digits. *)
Definition unhex_digit (c : ascii) : option Z :=
  option_map Z.of_nat (String.index 0 (String c "") hex_digits).

(** ** 32-bit floats

    A [float] is its IEEE-754 binary32 pattern, [0 <= f < 2^32]: bit 31 the
    sign, bits 30..23 the biased exponent, bits 22..0 the fraction. *)

Definition float := Z.

Definition signbit (f : float) : bool := Z.testbit f 31.
Definition biased_exponent (f : float) : Z := Z.land (Z.shiftr f 23) 255.
Definition fraction (f : float) : Z := Z.land f (2 ^ 23 - 1).

(** Every finite binary32 value is a whole number of units of [2^-149]. *)
Definition units (f : float) : Z :=
  let m := if biased_exponent f =? 0
           then fraction f
           else (2 ^ 23 + fraction f) * 2 ^ (biased_exponent f - 1) in
  if signbit f then - m else m.

(** The values a [double] takes in [writeFloat]: the conversion of a
    [float] to [double] is exact, and so is [nearbyint] on such a value. *)
Inductive double : Type :=
| DNaN
| DInf (negative : bool)
| DNum (q : Q).

(** [(double)f_val] *)
Definition to_double (f : float) : double :=
  if biased_exponent f =? 255 then
    if fraction f =? 0 then DInf (signbit f) else DNaN
  else DNum (Qmake (units f) (2 ^ 149)).

(** Rounding to the nearest integer, ties to even: the default rounding
    direction, which [nearbyint] follows. *)
Definition round_half_even (q : Q) : Z :=
  let n := Qfloor q in
  match Qcompare (q - inject_Z n) (1 # 2) with
  | Lt => n
  | Gt => n + 1
  | Eq => if Z.even n then n else n + 1
  end.

Definition nearbyint (d : double) : double :=
  match d with
  | DNum q => DNum (inject_Z (round_half_even q))
  | _ => d
  end.

(** [==] on doubles: a NaN is equal to nothing, zeros of both signs are
    equal. *)
Definition double_eq (a b : double) : bool :=
  match a, b with
  | DNum p, DNum q => Qeq_bool p q
  | DInf s, DInf t => Bool.eqb s t
  | _, _ => false
  end.

Definition INT64_MIN : Z := - 2 ^ 63.
Definition INT64_MAX : Z := 2 ^ 63 - 1.

(** [(int64_t)f_val]: truncation toward zero; the conversion is undefined
    when the truncated value is not an [int64_t] (and for NaN and the
    infinities), which is [None] here. *)
Definition to_int64 (f : float) : option Z :=
  match to_double f with
  | DNum q =>
      let n := Z.quot (Qnum q) (Zpos (Qden q)) in
      if (INT64_MIN <=? n) && (n <=? INT64_MAX) then Some n else None
  | _ => None
  end.

(** [b_val[i]]: the i-th byte of the object representation, in the byte
    order of the host. *)
Definition float_byte (big_endian : bool) (f : float) (i : Z) : Z :=
  let k := if big_endian then 3 - i else i in
  Z.land (Z.shiftr f (8 * k)) 255.

(** Two digits of [%x] read back as a byte. *)
Definition unhex2 (high low : ascii) : option Z :=
  match unhex_digit high, unhex_digit low with
  | Some h, Some l => Some (16 * h + l)
  | _, _ => None
  end.

(** Modelled from the spec: the bit-decoding helper of the runtime library on
    its second argument, which is no code of this repository's [src]: the
    eight hex digits are the four bytes of the pattern in the byte order of
    the host. *)
Definition bin2float_bits (big_endian : bool) (s : string) : option float :=
  match s with
  | String a1 (String a0 (String b1 (String b0
      (String c1 (String c0 (String d1 (String d0 EmptyString))))))) =>
      match unhex2 a1 a0, unhex2 b1 b0, unhex2 c1 c0, unhex2 d1 d0 with
      | Some a, Some b, Some c, Some d =>
          Some (if big_endian
                then d + 2 ^ 8 * c + 2 ^ 16 * b + 2 ^ 24 * a
                else a + 2 ^ 8 * b + 2 ^ 16 * c + 2 ^ 24 * d)
      | _, _, _, _ => None
      end
  | _ => None
  end.

(** ** The syntax tree handed over by the front end

    The tree is the one left by the desugaring pass that the [visit] of the
    script runs first: every coercion is an explicit cast node. *)

(** Children are held in lists and optional children in options; the
    induction principles of the tree follow them. *)
Scheme All for list.
Scheme All for option.

(** The type tags, in the order of [PY_TYPE_NAMES]. *)
Inductive LSLIType : Type :=
| LST_NULL | LST_INTEGER | LST_FLOATINGPOINT | LST_STRING | LST_KEY
| LST_VECTOR | LST_QUATERNION | LST_LIST | LST_ERROR.

Definition PY_TYPE_NAMES (t : LSLIType) : string :=
  match t with
  | LST_NULL => "None"
  | LST_INTEGER => "int"
  | LST_FLOATINGPOINT => "float"
  | LST_STRING => "str"
  | LST_KEY => "Key"
  | LST_VECTOR => "Vector"
  | LST_QUATERNION => "Quaternion"
  | LST_LIST => "list"
  | LST_ERROR => "<ERROR>"
  end.

(** Modelled from the spec: the scope classification of a symbol, declared in
    the front end's headers; the generator only compares it with
    [SYM_GLOBAL] and [SYM_BUILTIN]. *)
Inductive LSLSymbolSubType : Type := SYM_LOCAL | SYM_GLOBAL | SYM_BUILTIN.

Definition is_global (t : LSLSymbolSubType) : bool :=
  match t with SYM_GLOBAL => true | _ => false end.

Definition is_builtin (t : LSLSymbolSubType) : bool :=
  match t with SYM_BUILTIN => true | _ => false end.

Record LSLSymbol : Type := {
  sym_name : string;
  sym_itype : LSLIType;
  sym_subtype : LSLSymbolSubType
}.

Record LSLIdentifier : Type := {
  id_name : string;
  id_itype : LSLIType
}.

(** The operator codes.  The enumeration lives in the front end's headers;
    the constructors are the codes the generator names, the ones it writes as
    a character literal first (['='], ['+'], ['-'], ['*'], ['/'], ['%'],
    ['~'], ['!']), and [OP_OTHER] stands for every other code. *)
Inductive LSLOperator : Type :=
| OP_ASSIGN | OP_PLUS | OP_MINUS | OP_MUL | OP_DIV | OP_MOD
| OP_BIT_NOT | OP_BOOLEAN_NOT
| OP_EQ | OP_NEQ | OP_GREATER | OP_LESS | OP_GEQ | OP_LEQ
| OP_BOOLEAN_AND | OP_BOOLEAN_OR | OP_BIT_AND | OP_BIT_OR | OP_BIT_XOR
| OP_SHIFT_LEFT | OP_SHIFT_RIGHT
| OP_MUL_ASSIGN
| OP_POST_INCR | OP_POST_DECR | OP_PRE_INCR | OP_PRE_DECR
| OP_OTHER (code : Z).

Inductive LSLConstant : Type :=
| LSLIntegerConstant (value : Z)
| LSLFloatConstant (value : float)
| LSLStringConstant (value : string)
| LSLKeyConstant (value : string)
| LSLVectorConstant (x y z : float)
| LSLQuaternionConstant (x y z s : float)
| LSLListConstant (children : list LSLConstant).

(** An lvalue: the resolved symbol, the identifier as written and the
    optional coordinate member. *)
Record LSLLValue : Type := {
  lv_symbol : LSLSymbol;
  lv_identifier : LSLIdentifier;
  lv_member : option LSLIdentifier
}.

(** Every expression node carries its resolved type ([getIType]); a binary or
    unary node also carries [getResultNeeded]. *)
Inductive LSLExpression : Type :=
| LSLConstantExpression (ty : LSLIType) (c : LSLConstant)
| LSLVectorExpression (ty : LSLIType) (children : list LSLExpression)
| LSLQuaternionExpression (ty : LSLIType) (children : list LSLExpression)
| LSLListExpression (ty : LSLIType) (children : list LSLExpression)
| LSLTypecastExpression (ty : LSLIType) (child : LSLExpression)
| LSLFunctionExpression (ty : LSLIType) (sym : LSLSymbol)
    (arguments : list LSLExpression)
| LSLLValueExpression (ty : LSLIType) (lvalue : LSLLValue)
| LSLBinaryExpression (ty : LSLIType) (op : LSLOperator)
    (result_needed : bool) (lhs rhs : LSLExpression)
| LSLUnaryExpression (ty : LSLIType) (op : LSLOperator)
    (result_needed : bool) (child : LSLExpression)
| LSLPrintExpression (ty : LSLIType) (child : LSLExpression)
| LSLParenthesisExpression (ty : LSLIType) (child : LSLExpression)
| LSLBoolConversionExpression (ty : LSLIType) (child : LSLExpression).

Definition getIType (e : LSLExpression) : LSLIType :=
  match e with
  | LSLConstantExpression ty _ | LSLVectorExpression ty _
  | LSLQuaternionExpression ty _ | LSLListExpression ty _
  | LSLTypecastExpression ty _ | LSLFunctionExpression ty _ _
  | LSLLValueExpression ty _ | LSLBinaryExpression ty _ _ _ _
  | LSLUnaryExpression ty _ _ _ | LSLPrintExpression ty _
  | LSLParenthesisExpression ty _ | LSLBoolConversionExpression ty _ => ty
  end.

Inductive LSLStatement : Type :=
| LSLNopStatement
| LSLCompoundStatement (children : list LSLStatement)
| LSLExpressionStatement (expr : LSLExpression)
| LSLDeclaration (sym : LSLSymbol) (initializer : option LSLExpression)
| LSLIfStatement (check : LSLExpression) (true_branch : LSLStatement)
    (false_branch : option LSLStatement)
| LSLForStatement (init_exprs : list LSLExpression) (check : LSLExpression)
    (body : LSLStatement) (incr_exprs : list LSLExpression)
| LSLWhileStatement (check : LSLExpression) (body : LSLStatement)
| LSLDoStatement (body : LSLStatement) (check : LSLExpression)
| LSLJumpStatement (sym : LSLSymbol)
| LSLLabel (sym : LSLSymbol)
| LSLReturnStatement (expr : option LSLExpression)
| LSLStateStatement (sym : LSLSymbol).

Record LSLGlobalVariable : Type := {
  gv_identifier : LSLIdentifier;
  gv_symbol : LSLSymbol;
  gv_initializer : option LSLExpression
}.

Record LSLGlobalFunction : Type := {
  gf_identifier : LSLIdentifier;
  gf_arguments : list LSLIdentifier;
  gf_statements : LSLStatement
}.

Record LSLEventHandler : Type := {
  eh_identifier : LSLIdentifier;
  eh_arguments : list LSLIdentifier;
  eh_statements : LSLStatement
}.

Record LSLState : Type := {
  st_symbol : LSLSymbol;
  st_handlers : list LSLEventHandler
}.

(** A global is a node of type [NODE_GLOBAL_VARIABLE] or
    [NODE_GLOBAL_FUNCTION]. *)
Inductive LSLGlobal : Type :=
| NODE_GLOBAL_VARIABLE (glob_var : LSLGlobalVariable)
| NODE_GLOBAL_FUNCTION (glob_func : LSLGlobalFunction).

Record LSLScript : Type := {
  getGlobals : list LSLGlobal;
  getStates : list LSLState
}.

(** Modelled from the spec: [LSLType::getDefaultValue], the front end's table
    of canonical zero-values (integer 0, float 0.0, empty string, empty key,
    all-zero vector and quaternion, empty list); the tags that are no value
    type have none. *)
Definition getDefaultValue (t : LSLIType) : option LSLConstant :=
  match t with
  | LST_INTEGER => Some (LSLIntegerConstant 0)
  | LST_FLOATINGPOINT => Some (LSLFloatConstant 0)
  | LST_STRING => Some (LSLStringConstant "")
  | LST_KEY => Some (LSLKeyConstant "")
  | LST_VECTOR => Some (LSLVectorConstant 0 0 0)
  | LST_QUATERNION => Some (LSLQuaternionConstant 0 0 0 0)
  | LST_LIST => Some (LSLListConstant [])
  | LST_NULL | LST_ERROR => None
  end.

(** Modelled from the spec: [LSLType::getOneValue], the front end's unit of
    increment and decrement (by one): the integer 1 and the float 1.0, whose
    pattern is [0x3f800000]; no other type has one. *)
Definition getOneValue (t : LSLIType) : option LSLConstant :=
  match t with
  | LST_INTEGER => Some (LSLIntegerConstant 1)
  | LST_FLOATINGPOINT => Some (LSLFloatConstant 1065353216)
  | _ => None
  end.

(** ** The visitor's state and faults *)

Record PythonVisitor : Type := {
  mStr : string;
  mTabs : nat
}.

Inductive Fault : Type :=
| AssertionFailed      (* [assert(0)] with assertions enabled *)
| NullPointer          (* a member call through a null pointer *)
| BadCast              (* a node used as an lvalue that is none *)
| UndefinedConversion. (* a float that no [int64_t] holds *)

Definition M (A : Type) : Type := PythonVisitor -> Fault + (A * PythonVisitor).

Definition ret {A : Type} (a : A) : M A := fun v => inr (a, v).

Definition bind {A B : Type} (m : M A) (k : A -> M B) : M B :=
  fun v => match m v with
           | inl f => inl f
           | inr (a, v') => k a v'
           end.

Definition fail {A : Type} (f : Fault) : M A := fun _ => inl f.

Notation "x <- m ;; k" := (bind m (fun x => k))
  (at level 61, m at next level, right associativity).
Notation "m ;; k" := (bind m (fun _ => k))
  (at level 61, right associativity).

(** [mStr << s] *)
Definition write (s : string) : M unit :=
  fun v => inr (tt, {| mStr := mStr v ++ s; mTabs := mTabs v |}).

Definition getTabs : M nat := fun v => inr (mTabs v, v).

Definition setTabs (tabs : nat) : M unit :=
  fun v => inr (tt, {| mStr := mStr v; mTabs := tabs |}).

(** A pointer that may be null, dereferenced. *)
Definition deref {A : Type} (p : option A) : M A :=
  match p with
  | Some a => ret a
  | None => fail NullPointer
  end.

(** [if (c) body] *)
Definition when (c : bool) (body : M unit) : M unit :=
  if c then body else ret tt.

Fixpoint repeatM (n : nat) (body : M unit) : M unit :=
  match n with
  | O => ret tt
  | S k => body ;; repeatM k body
  end.

Definition doTabs : M unit :=
  tabs <- getTabs ;;
  repeatM tabs (write "    ").

(** The scope of a [ScopedTabSetter]: the depth is set on entry and the old
    one is put back when the scope is left. *)
Definition ScopedTabSetter (tabs : nat) (scope : M unit) : M unit :=
  _mOldTabs <- getTabs ;;
  setTabs tabs ;;
  scope ;;
  setTabs _mOldTabs.

(** A range-based [for] over the children of a node. *)
Definition forEach {A : Type} (body : A -> M unit) : list A -> M unit :=
  fix go (children : list A) : M unit :=
    match children with
    | [] => ret tt
    | child :: rest => body child ;; go rest
    end.

(** [getNext()] of a child is non-null when another child follows it. *)
Definition writeChildrenSep {A : Type} (visit : A -> M unit)
    (separator : string) : list A -> M unit :=
  fix go (children : list A) : M unit :=
    match children with
    | [] => ret tt
    | child :: rest =>
        visit child ;;
        when (match rest with [] => false | _ => true end) (write separator) ;;
        go rest
    end.

(** The double quote character of the emitted text. *)
Definition dquote : string := String "034"%char "".

(** The line feed. *)
Definition nl : string := String "010"%char "".

(** ** The host: what the build and the libraries decide

    [NDEBUG] turns [assert] into nothing; [big_endian] is the byte order;
    [to_string] is [std::to_string] on a [float], [escape_string] the front
    end's escaping of a string constant. *)
Record Host : Type := {
  NDEBUG : bool;
  big_endian : bool;
  to_string : float -> string;
  escape_string : string -> string
}.

Section Generator.

Variable H : Host.

(** [assert(0)] *)
Definition assert0 : M unit :=
  if NDEBUG H then ret tt else fail AssertionFailed.

Definition writeFloat (f_val : float) : M unit :=
  if double_eq (nearbyint (to_double f_val)) (to_double f_val) then
    if double_eq (to_double f_val) (DNum 0) && signbit f_val then
      write "-0.0"
    else
      match to_int64 f_val with
      | Some n => write (dec n) ;; write ".0"
      | None => fail UndefinedConversion
      end
  else
    let b_val := float_byte (big_endian H) f_val in
    let s_val := hex2 (b_val 0) ++ hex2 (b_val 1)
                   ++ hex2 (b_val 2) ++ hex2 (b_val 3) in
    write "bin2float('" ;; write (to_string H f_val) ;; write "', '" ;;
    write s_val ;; write "')".

Fixpoint visit_constant (c : LSLConstant) : M unit :=
  match c with
  | LSLIntegerConstant value => write (dec value)
  | LSLFloatConstant value => writeFloat value
  | LSLStringConstant value =>
      write dquote ;; write (escape_string H value) ;; write dquote
  | LSLKeyConstant value =>
      write ("Key(" ++ dquote) ;; write (escape_string H value) ;;
      write (dquote ++ ")")
  | LSLVectorConstant x y z =>
      write "Vector((" ;;
      writeFloat x ;; write ", " ;;
      writeFloat y ;; write ", " ;;
      writeFloat z ;;
      write "))"
  | LSLQuaternionConstant x y z s =>
      write "Quaternion((" ;;
      writeFloat x ;; write ", " ;;
      writeFloat y ;; write ", " ;;
      writeFloat z ;; write ", " ;;
      writeFloat s ;;
      write "))"
  | LSLListConstant children =>
      write "[" ;; writeChildrenSep visit_constant ", " children ;; write "]"
  end.

Definition member_to_offset (member : string) : M Z :=
  match member with
  | String "x" _ => ret 0
  | String "y" _ => ret 1
  | String "z" _ => ret 2
  | String "s" _ => ret 3
  | _ => assert0 ;; ret 0
  end.

Definition visit_lvalue (lvalue : LSLLValue) : M unit :=
  when (is_global (sym_subtype (lv_symbol lvalue))) (write "self.") ;;
  write (id_name (lv_identifier lvalue)) ;;
  match lv_member lvalue with
  | Some member =>
      write "[" ;;
      offset <- member_to_offset (id_name member) ;;
      write (dec offset) ;; write "]"
  | None => ret tt
  end.

(** [visit_rhs] is [rhs->visit(this)]. *)
Definition constructMutatedMember (sym : LSLSymbol) (member : LSLIdentifier)
    (visit_rhs : M unit) : M unit :=
  member_offset <- member_to_offset (id_name member) ;;
  write "replace_coord_axis(" ;;
  when (is_global (sym_subtype sym)) (write "self.") ;;
  write (sym_name sym) ;; write ", " ;; write (dec member_offset) ;;
  write ", " ;;
  visit_rhs ;;
  write ")".

(** The cast of an operand to [LSLLValueExpression *]. *)
Definition as_lvalue (e : LSLExpression) : M LSLLValue :=
  match e with
  | LSLLValueExpression _ lvalue => ret lvalue
  | _ => fail BadCast
  end.

(** [getSymbol()] of an expression: the symbol of an lvalue, null otherwise. *)
Definition getSymbol (e : LSLExpression) : option LSLSymbol :=
  match e with
  | LSLLValueExpression _ lvalue => Some (lv_symbol lvalue)
  | _ => None
  end.

(** The [switch] of the binary visit; [None] is its [default]. *)
Definition binary_helper (op : LSLOperator) : option string :=
  match op with
  | OP_PLUS => Some "radd("
  | OP_MINUS => Some "rsub("
  | OP_MUL => Some "rmul("
  | OP_DIV => Some "rdiv("
  | OP_MOD => Some "rmod("
  | OP_EQ => Some "req("
  | OP_NEQ => Some "rneq("
  | OP_GREATER => Some "rgreater("
  | OP_LESS => Some "rless("
  | OP_GEQ => Some "rgeq("
  | OP_LEQ => Some "rleq("
  | OP_BOOLEAN_AND => Some "rbooland("
  | OP_BOOLEAN_OR => Some "rboolor("
  | OP_BIT_AND => Some "rbitand("
  | OP_BIT_OR => Some "rbitor("
  | OP_BIT_XOR => Some "rbitxor("
  | OP_SHIFT_LEFT => Some "rshl("
  | OP_SHIFT_RIGHT => Some "rshr("
  | _ => None
  end.

(** The [switch] of the unary visit; [None] is its [default]. *)
Definition unary_helper (op : LSLOperator) : option string :=
  match op with
  | OP_MINUS => Some "neg("
  | OP_BIT_NOT => Some "bitnot("
  | OP_BOOLEAN_NOT => Some "boolnot("
  | _ => None
  end.

Definition is_post (op : LSLOperator) : bool :=
  match op with OP_POST_INCR | OP_POST_DECR => true | _ => false end.

Definition is_negative (op : LSLOperator) : bool :=
  match op with OP_POST_DECR | OP_PRE_DECR => true | _ => false end.

Definition is_incr_decr (op : LSLOperator) : bool :=
  match op with
  | OP_POST_DECR | OP_POST_INCR | OP_PRE_DECR | OP_PRE_INCR => true
  | _ => false
  end.

Definition is_some {A : Type} (o : option A) : bool :=
  match o with Some _ => true | None => false end.

Fixpoint visit_expr (e : LSLExpression) : M unit :=
  match e with
  | LSLConstantExpression _ c => visit_constant c
  | LSLVectorExpression _ children =>
      write "Vector((" ;; writeChildrenSep visit_expr ", " children ;;
      write "))"
  | LSLQuaternionExpression _ children =>
      write "Quaternion((" ;; writeChildrenSep visit_expr ", " children ;;
      write "))"
  | LSLListExpression _ children =>
      write "[" ;; writeChildrenSep visit_expr ", " children ;; write "]"
  | LSLTypecastExpression to_type child_expr =>
      match getIType child_expr, to_type with
      | LST_INTEGER, LST_FLOATINGPOINT =>
          write "float(" ;; visit_expr child_expr ;; write ")"
      | _, _ =>
          write "typecast(" ;; visit_expr child_expr ;; write ", " ;;
          write (PY_TYPE_NAMES to_type) ;; write ")"
      end
  | LSLFunctionExpression _ sym arguments =>
      (if is_builtin (sym_subtype sym)
       then write "lslfuncs." else write "self.") ;;
      write (sym_name sym) ;; write "(" ;;
      writeChildrenSep visit_expr ", " arguments ;;
      write ")"
  | LSLLValueExpression _ lvalue => visit_lvalue lvalue
  | LSLBinaryExpression _ op result_needed lhs rhs =>
      match op with
      | OP_ASSIGN =>
          lvalue <- as_lvalue lhs ;;
          let sym := lv_symbol lvalue in
          if negb result_needed then
            when (is_global (sym_subtype sym)) (write "self.") ;;
            write (sym_name sym) ;; write " = " ;;
            match lv_member lvalue with
            | Some member => constructMutatedMember sym member (visit_expr rhs)
            | None => visit_expr rhs
            end
          else
            (if is_global (sym_subtype sym) then
               write ("assign(self.__dict__, " ++ dquote) ;;
               write (sym_name sym) ;; write (dquote ++ ", ")
             else
               write "(" ;; write (sym_name sym) ;; write " := ") ;;
            match lv_member lvalue with
            | Some member => constructMutatedMember sym member (visit_expr rhs)
            | None => visit_expr rhs
            end ;;
            write ")" ;;
            match lv_member lvalue with
            | Some member =>
                write "[" ;;
                offset <- member_to_offset (id_name member) ;;
                write (dec offset) ;; write "]"
            | None => ret tt
            end
      | OP_MUL_ASSIGN =>
          sym <- deref (getSymbol lhs) ;;
          (if is_global (sym_subtype sym) then
             write ("assign(self.__dict__, " ++ dquote) ;;
             write (sym_name sym) ;; write (dquote ++ ", ")
           else
             write "(" ;; write (sym_name sym) ;; write " := ") ;;
          write "typecast(rmul(" ;;
          visit_expr rhs ;;
          write ", " ;;
          visit_expr lhs ;;
          write "), int))"
      | _ =>
          match binary_helper op with
          | Some helper => write helper
          | None => assert0 ;; write "<ERROR>"
          end ;;
          visit_expr rhs ;;
          write ", " ;;
          visit_expr lhs ;;
          write ")"
      end
  | LSLUnaryExpression _ op result_needed child_expr =>
      if is_incr_decr op then
        let post := is_post op in
        let negative := is_negative op in
        lvalue <- as_lvalue child_expr ;;
        let sym := lv_symbol lvalue in
        let global := is_global (sym_subtype sym) in
        let member := lv_member lvalue in
        if result_needed || is_some member then
          (if post then write "post" else write "pre") ;;
          (if negative then write "decr" else write "incr") ;;
          write "(" ;;
          (if global then write "self.__dict__" else write "locals()") ;;
          write (", " ++ dquote) ;; write (sym_name sym) ;; write dquote ;;
          match lv_member lvalue with
          | Some member =>
              write ", " ;;
              offset <- member_to_offset (id_name member) ;;
              write (dec offset)
          | None => ret tt
          end ;;
          write ")"
        else
          when (is_global (sym_subtype sym)) (write "self.") ;;
          write (sym_name sym) ;;
          (if negative then write " -= " else write " += ") ;;
          one <- deref (getOneValue (getIType child_expr)) ;;
          visit_constant one
      else
        match unary_helper op with
        | Some helper => write helper
        | None => assert0 ;; write "<ERROR>"
        end ;;
        visit_expr child_expr ;;
        write ")"
  | LSLPrintExpression _ child_expr =>
      write "print(" ;; visit_expr child_expr ;; write ")"
  | LSLParenthesisExpression _ child_expr =>
      write "(" ;; visit_expr child_expr ;; write ")"
  | LSLBoolConversionExpression _ child_expr =>
      write "cond(" ;; visit_expr child_expr ;; write ")"
  end.

(** [initializer->visit(this)], where a missing initializer is replaced by
    the default value of the symbol's type. *)
Definition visit_initializer (initializer : option LSLExpression)
    (sym : LSLSymbol) : M unit :=
  match initializer with
  | Some e => visit_expr e
  | None =>
      default <- deref (getDefaultValue (sym_itype sym)) ;;
      visit_constant default
  end.

Fixpoint visit_stmt (s : LSLStatement) : M unit :=
  match s with
  | LSLNopStatement => doTabs ;; write ("pass" ++ nl)
  | LSLCompoundStatement children =>
      match children with
      | _ :: _ => forEach visit_stmt children
      | [] => doTabs ;; write ("pass" ++ nl)
      end
  | LSLExpressionStatement expr =>
      doTabs ;; visit_expr expr ;; write nl
  | LSLDeclaration sym initializer =>
      doTabs ;;
      write (sym_name sym) ;; write ": " ;;
      write (PY_TYPE_NAMES (sym_itype sym)) ;; write " = " ;;
      visit_initializer initializer sym ;;
      write nl
  | LSLIfStatement check true_branch false_branch =>
      doTabs ;;
      write "if " ;;
      visit_expr check ;;
      write (":" ++ nl) ;;
      (tabs <- getTabs ;;
       ScopedTabSetter (tabs + 1) (visit_stmt true_branch)) ;;
      match false_branch with
      | Some false_branch =>
          doTabs ;;
          write ("else:" ++ nl) ;;
          tabs <- getTabs ;;
          ScopedTabSetter (tabs + 1) (visit_stmt false_branch)
      | None => ret tt
      end
  | LSLForStatement init_exprs check body incr_exprs =>
      forEach (fun init_expr =>
                 doTabs ;; visit_expr init_expr ;; write nl) init_exprs ;;
      doTabs ;;
      write ("while True:" ++ nl) ;;
      tabs <- getTabs ;;
      ScopedTabSetter (tabs + 1)
        (doTabs ;;
         write "if not " ;;
         visit_expr check ;;
         write (":" ++ nl) ;;
         (tabs <- getTabs ;;
          ScopedTabSetter (tabs + 1) (doTabs ;; write ("break" ++ nl))) ;;
         visit_stmt body ;;
         forEach (fun incr_expr =>
                    doTabs ;; visit_expr incr_expr ;; write nl) incr_exprs)
  | LSLWhileStatement check body =>
      doTabs ;;
      write "while " ;;
      visit_expr check ;;
      write (":" ++ nl) ;;
      tabs <- getTabs ;;
      ScopedTabSetter (tabs + 1) (visit_stmt body)
  | LSLDoStatement body check =>
      doTabs ;;
      write ("while True:" ++ nl) ;;
      tabs <- getTabs ;;
      ScopedTabSetter (tabs + 1)
        (visit_stmt body ;;
         doTabs ;;
         write "if not " ;;
         visit_expr check ;;
         write (":" ++ nl) ;;
         tabs <- getTabs ;;
         ScopedTabSetter (tabs + 1) (doTabs ;; write ("break" ++ nl)))
  | LSLJumpStatement sym =>
      doTabs ;;
      write "goto ." ;; write (sym_name sym) ;; write nl
  | LSLLabel sym =>
      doTabs ;;
      write "label ." ;; write (sym_name sym) ;; write nl
  | LSLReturnStatement expr =>
      doTabs ;;
      match expr with
      | Some expr => write "return " ;; visit_expr expr
      | None => write "return"
      end ;;
      write nl
  | LSLStateStatement sym =>
      doTabs ;;
      write "raise StateChangeException('" ;; write (sym_name sym) ;;
      write ("')" ++ nl)
  end.

(** The parameter list of a function or handler, after [self]. *)
Definition visit_arguments (arguments : list LSLIdentifier) : M unit :=
  forEach (fun arg =>
             write ", " ;; write (id_name arg) ;; write ": " ;;
             write (PY_TYPE_NAMES (id_itype arg))) arguments.

Definition visit_global_variable (glob_var : LSLGlobalVariable) : M unit :=
  let sym := gv_symbol glob_var in
  doTabs ;;
  write "self." ;; write (sym_name sym) ;; write " = " ;;
  visit_initializer (gv_initializer glob_var) sym ;;
  write nl.

Definition visit_global_function (glob_func : LSLGlobalFunction) : M unit :=
  let id := gf_identifier glob_func in
  doTabs ;;
  write ("@with_goto" ++ nl) ;;
  doTabs ;;
  write "def " ;; write (id_name id) ;; write "(self" ;;
  visit_arguments (gf_arguments glob_func) ;;
  write ") -> " ;; write (PY_TYPE_NAMES (id_itype id)) ;; write (":" ++ nl) ;;
  tabs <- getTabs ;;
  ScopedTabSetter (tabs + 1)
    (visit_stmt (gf_statements glob_func) ;;
     write nl).

(** [state_sym] is the symbol of the state that owns the handler:
    [getParent()->getParent()->getSymbol()]. *)
Definition visit_event_handler (state_sym : LSLSymbol)
    (event_handler : LSLEventHandler) : M unit :=
  let id := eh_identifier event_handler in
  doTabs ;;
  write ("@with_goto" ++ nl) ;;
  doTabs ;;
  write "def e" ;; write (sym_name state_sym) ;; write (id_name id) ;;
  write "(self" ;;
  visit_arguments (eh_arguments event_handler) ;;
  write ") -> " ;; write (PY_TYPE_NAMES (id_itype id)) ;; write (":" ++ nl) ;;
  tabs <- getTabs ;;
  ScopedTabSetter (tabs + 1)
    (visit_stmt (eh_statements event_handler) ;;
     write nl).

(** The states are walked by the default visit: each state, then each of its
    handlers. *)
Definition visit_state (state : LSLState) : M unit :=
  forEach (visit_event_handler (st_symbol state)) (st_handlers state).

Definition visit_script (script : LSLScript) : M unit :=
  write ("from lummao import *" ++ nl ++ nl ++ nl) ;;
  write ("class Script(BaseLSLScript):" ++ nl) ;;
  tabs <- getTabs ;;
  ScopedTabSetter (tabs + 1)
    (forEach (fun glob =>
                match glob with
                | NODE_GLOBAL_VARIABLE glob_var =>
                    let id := gv_identifier glob_var in
                    doTabs ;;
                    write (id_name id) ;; write ": " ;;
                    write (PY_TYPE_NAMES (id_itype id)) ;; write nl
                | _ => ret tt
                end) (getGlobals script) ;;
     write nl ;;
     doTabs ;;
     write ("def __init__(self):" ++ nl) ;;
     (tabs <- getTabs ;;
      ScopedTabSetter (tabs + 1)
        (doTabs ;;
         write ("super().__init__()" ++ nl) ;;
         forEach (fun glob =>
                    match glob with
                    | NODE_GLOBAL_VARIABLE glob_var =>
                        visit_global_variable glob_var
                    | _ => ret tt
                    end) (getGlobals script) ;;
         write nl)) ;;
     forEach (fun glob =>
                match glob with
                | NODE_GLOBAL_FUNCTION glob_func =>
                    visit_global_function glob_func
                | _ => ret tt
                end) (getGlobals script) ;;
     forEach visit_state (getStates script)).

End Generator.

(** ** The text a visit appends *)

(** The text appended by [m] when it runs at depth [tabs], or its fault. *)
Definition emit {A : Type} (m : M A) (tabs : nat) : Fault + string :=
  match m {| mStr := ""; mTabs := tabs |} with
  | inl f => inl f
  | inr (_, v) => inr (mStr v)
  end.

(** The indentation written by [doTabs] at depth [n]. *)
Fixpoint indent (n : nat) : string :=
  match n with
  | O => ""
  | S k => "    " ++ indent k
  end.

(** A host for concrete runs: assertions enabled, little-endian, a fixed
    hint, no escaping. *)
Definition debug_host : Host :=
  {| NDEBUG := false; big_endian := false;
     to_string := fun _ => "?"; escape_string := fun s => s |}.

(** The same host built with [NDEBUG]. *)
Definition release_host : Host :=
  {| NDEBUG := true; big_endian := false;
     to_string := fun _ => "?"; escape_string := fun s => s |}.

(** Sequencing of two results: the first fault wins, texts are joined. *)
Definition cat (a b : Fault + string) : Fault + string :=
  match a with
  | inl f => inl f
  | inr x => match b with
             | inl f => inl f
             | inr y => inr (x ++ y)
             end
  end.

Infix "+++" := cat (at level 60, right associativity).

(** The text of a loop over children: the texts of the children in order. *)
Fixpoint cat_all {A : Type} (f : A -> Fault + string) (l : list A)
  : Fault + string :=
  match l with
  | [] => inr ""
  | x :: rest => f x +++ cat_all f rest
  end.

(** The text of [writeChildrenSep]. *)
Fixpoint cat_sep {A : Type} (f : A -> Fault + string) (separator : string)
    (l : list A) : Fault + string :=
  match l with
  | [] => inr ""
  | x :: rest =>
      f x +++
      inr (match rest with [] => "" | _ => separator end) +++
      cat_sep f separator rest
  end.

(** A computation is a writer when it only appends to [mStr], what it
    appends depends on the depth alone, and it leaves the depth as it found
    it. *)
Definition Writer {A : Type} (m : M A) : Prop :=
  forall v,
    m v = match m {| mStr := ""; mTabs := mTabs v |} with
          | inl f => inl f
          | inr (a, v') =>
              inr (a, {| mStr := mStr v ++ mStr v'; mTabs := mTabs v |})
          end.

(** The coordinate offsets of [member_to_offset]; [None] is its [default]. *)
Definition coordinate_offset (member : string) : option Z :=
  match member with
  | String "x" _ => Some 0
  | String "y" _ => Some 1
  | String "z" _ => Some 2
  | String "s" _ => Some 3
  | _ => None
  end.

(** ** The driver

    What [main] sees of the world: which input paths open, what the front
    end makes of the input, and whether the output stream opens.  The front
    end's logger counts errors; the count only grows. *)

Record FrontEnd : Type := {
  (* [parser.parseLSL(yyin)]: the script, or null *)
  fe_script : option LSLScript;
  (* errors logged while parsing *)
  fe_parse_errors : nat;
  (* errors logged by [collectSymbols] .. [checkBestPractices] *)
  fe_pass_errors : nat;
  (* errors logged by [validateGlobals] and [checkSymbols] *)
  fe_validation_errors : nat;
  (* what [logger->report()] prints *)
  fe_report : string
}.

Record World : Type := {
  (* [fopen(path, "r")] returns a stream *)
  fopen_ok : string -> bool;
  (* the front end on the opened input; [None] is the null [yyin] *)
  front_end : option string -> FrontEnd;
  (* [py_out.good()] after the stream is opened on the path *)
  ofstream_good : string -> bool;
  (* [py_out.write] succeeds on the path; [main] never asks *)
  ofstream_write_ok : string -> bool
}.

Record Outcome : Type := {
  status : Z;                         (* the value [main] returns *)
  err : list string;                  (* what went to [stderr], in order *)
  out : option string;                (* what went to [stdout] *)
  file : option (string * string);    (* the path and text given to [write] *)
  py_code : option string             (* the generated text, when the visitor ran *)
}.

(** [logger->getErrors()] after the passes that [main] runs on the script. *)
Definition getErrors (fe : FrontEnd) : nat :=
  match fe_script fe with
  | Some _ =>
      let errors := (fe_parse_errors fe + fe_pass_errors fe)%nat in
      if (errors =? 0)%nat then (errors + fe_validation_errors fe)%nat
      else errors
  | None => fe_parse_errors fe
  end.

Definition main (H : Host) (w : World) (argv : list string)
  : Fault + Outcome :=
  match argv with
  | [_; input; output] =>
      if negb (input =? "-")%string && negb (fopen_ok w input) then
        inr {| status := 1;
               err := ["couldn't open " ++ input ++ nl];
               out := None; file := None; py_code := None |}
      else
        let yyin := if (input =? "-")%string then None else Some input in
        let fe := front_end w yyin in
        let report := [fe_report fe] in
        if (getErrors fe =? 0)%nat then
          match fe_script fe with
          | None => inl NullPointer
          | Some script =>
              match visit_script H script {| mStr := ""; mTabs := 0 |} with
              | inl f => inl f
              | inr (_, py_visitor) =>
                  let code := mStr py_visitor in
                  if (output =? "-")%string then
                    inr {| status := Z.of_nat (getErrors fe);
                           err := report;
                           out := Some code; file := None;
                           py_code := Some code |}
                  else if ofstream_good w output then
                    inr {| status := Z.of_nat (getErrors fe);
                           err := report;
                           out := None; file := Some (output, code);
                           py_code := Some code |}
                  else
                    inr {| status := 1;
                           err := report ++ ["Couldn't open '" ++ output
                                             ++ "'" ++ nl];
                           out := None; file := None;
                           py_code := Some code |}
              end
          end
        else
          inr {| status := Z.of_nat (getErrors fe);
                 err := report;
                 out := None; file := None; py_code := None |}
  | _ =>
      inr {| status := 1;
             err := ["lummao <lsl_script> <out_py>" ++ nl];
             out := None; file := None; py_code := None |}
  end.

(** ** Vocabulary of the statements *)

(** The attribute marker in front of the name of a global. *)
Definition self_prefix (sym : LSLSymbol) : string :=
  if is_global (sym_subtype sym) then "self." else "".

(** The texts of the elements of a list, joined in order. *)
Fixpoint concat_map {A : Type} (f : A -> string) (l : list A) : string :=
  match l with
  | [] => ""
  | x :: rest => f x ++ concat_map f rest
  end.

(** The global variables of a script, in source order. *)
Fixpoint global_variables (globals : list LSLGlobal)
  : list LSLGlobalVariable :=
  match globals with
  | [] => []
  | NODE_GLOBAL_VARIABLE glob_var :: rest => glob_var :: global_variables rest
  | NODE_GLOBAL_FUNCTION _ :: rest => global_variables rest
  end.

(** The global functions of a script, in source order. *)
Fixpoint global_functions (globals : list LSLGlobal)
  : list LSLGlobalFunction :=
  match globals with
  | [] => []
  | NODE_GLOBAL_VARIABLE _ :: rest => global_functions rest
  | NODE_GLOBAL_FUNCTION glob_func :: rest => glob_func :: global_functions rest
  end.

(** The parameter list of a method, after [self]. *)
Definition parameters_text (arguments : list LSLIdentifier) : string :=
  concat_map (fun arg => ", " ++ id_name arg ++ ": "
                           ++ PY_TYPE_NAMES (id_itype arg)) arguments.

(** The text of a method called [name] at depth [t]: the decorator that
    supplies goto and label, the [def] line, and the body one level
    deeper. *)
Definition method_text (name : string) (arguments : list LSLIdentifier)
    (return_type : LSLIType) (body : Fault + string) (t : nat)
  : Fault + string :=
  inr (indent t ++ "@with_goto" ++ nl
       ++ indent t ++ "def " ++ name ++ "(self" ++ parameters_text arguments
       ++ ") -> " ++ PY_TYPE_NAMES return_type ++ ":" ++ nl)
  +++ body +++ inr nl.

(** The coordinate members and their offsets. *)
Definition coordinate_members : list (ascii * Z) :=
  [("x", 0); ("y", 1); ("z", 2); ("s", 3)]%char.

(** The call that binds a new value to [sym] and yields it: the assignment
    helper on the instance's attribute table for a global, the inline
    assignment expression for a local. *)
Definition rebind_open (sym : LSLSymbol) : string :=
  if is_global (sym_subtype sym)
  then "assign(self.__dict__, " ++ dquote ++ sym_name sym ++ dquote ++ ", "
  else "(" ++ sym_name sym ++ " := ".

(** The runtime library's helper of each arithmetic, comparison, boolean and
    bitwise operator, by name. *)
Definition runtime_helpers : list (LSLOperator * string) :=
  [(OP_PLUS, "radd"); (OP_MINUS, "rsub"); (OP_MUL, "rmul"); (OP_DIV, "rdiv");
   (OP_MOD, "rmod");
   (OP_EQ, "req"); (OP_NEQ, "rneq"); (OP_GREATER, "rgreater");
   (OP_LESS, "rless"); (OP_GEQ, "rgeq"); (OP_LEQ, "rleq");
   (OP_BOOLEAN_AND, "rbooland"); (OP_BOOLEAN_OR, "rboolor");
   (OP_BIT_AND, "rbitand"); (OP_BIT_OR, "rbitor"); (OP_BIT_XOR, "rbitxor");
   (OP_SHIFT_LEFT, "rshl"); (OP_SHIFT_RIGHT, "rshr")].

(** The four increments and decrements: for each operator the runtime
    library's helper of its expression form, and the compound assignment of
    its statement form. *)
Record IncrDecrForm : Type := {
  helper_name : string;
  statement_operator : string
}.

Definition incr_decr_forms : list (LSLOperator * IncrDecrForm) :=
  [(OP_PRE_INCR,
    {| helper_name := "preincr"; statement_operator := " += " |});
   (OP_PRE_DECR,
    {| helper_name := "predecr"; statement_operator := " -= " |});
   (OP_POST_INCR,
    {| helper_name := "postincr"; statement_operator := " += " |});
   (OP_POST_DECR,
    {| helper_name := "postdecr"; statement_operator := " -= " |})].

(** The container handed to that helper. *)
Definition container (sym : LSLSymbol) : string :=
  if is_global (sym_subtype sym) then "self.__dict__" else "locals()".

(** The text of the value a global is initialised with at depth [t]: its
    declared initializer, or the default value of its type. *)
Definition initial_value_text (H : Host) (glob_var : LSLGlobalVariable)
    (t : nat) : Fault + string :=
  match gv_initializer glob_var with
  | Some e => emit (visit_expr H e) t
  | None =>
      match getDefaultValue (sym_itype (gv_symbol glob_var)) with
      | Some default => emit (visit_constant H default) t
      | None => inl NullPointer
      end
  end.

(** The text of the zero-value of a type. *)
Definition zero_value_text (H : Host) (ty : LSLIType) : string :=
  match ty with
  | LST_INTEGER => "0"
  | LST_FLOATINGPOINT => "0.0"
  | LST_STRING => dquote ++ escape_string H "" ++ dquote
  | LST_KEY => "Key(" ++ dquote ++ escape_string H "" ++ dquote ++ ")"
  | LST_VECTOR => "Vector((0.0, 0.0, 0.0))"
  | LST_QUATERNION => "Quaternion((0.0, 0.0, 0.0, 0.0))"
  | LST_LIST => "[]"
  | LST_NULL | LST_ERROR => ""
  end.

(** The front end's contract on operators and members: every operator of
    the tree is one the visit of its node knows, and every coordinate member
    starts with x, y, z or s. *)
Definition member_known (member : option LSLIdentifier) : bool :=
  match member with
  | Some member => is_some (coordinate_offset (id_name member))
  | None => true
  end.

Definition binary_known (op : LSLOperator) : bool :=
  match op with
  | OP_ASSIGN | OP_MUL_ASSIGN => true
  | _ => is_some (binary_helper op)
  end.

Definition unary_known (op : LSLOperator) : bool :=
  is_incr_decr op || is_some (unary_helper op).

Fixpoint in_closed_sets (e : LSLExpression) : bool :=
  match e with
  | LSLConstantExpression _ _ => true
  | LSLVectorExpression _ children
  | LSLQuaternionExpression _ children
  | LSLListExpression _ children => forallb in_closed_sets children
  | LSLTypecastExpression _ child => in_closed_sets child
  | LSLFunctionExpression _ _ arguments => forallb in_closed_sets arguments
  | LSLLValueExpression _ lvalue => member_known (lv_member lvalue)
  | LSLBinaryExpression _ op _ lhs rhs =>
      binary_known op && in_closed_sets lhs && in_closed_sets rhs
  | LSLUnaryExpression _ op _ child => unary_known op && in_closed_sets child
  | LSLPrintExpression _ child
  | LSLParenthesisExpression _ child
  | LSLBoolConversionExpression _ child => in_closed_sets child
  end.

(** A computation that never stops on a failed assertion. *)
Definition NoAssert {A : Type} (m : M A) : Prop :=
  forall v, m v <> inl AssertionFailed.

(** The eight hex digits [writeFloat] prints for a pattern. *)
Definition hex_encoding (big_endian : bool) (f : float) : string :=
  hex2 (float_byte big_endian f 0) ++ hex2 (float_byte big_endian f 1)
  ++ hex2 (float_byte big_endian f 2) ++ hex2 (float_byte big_endian f 3).

(** The float 2^63: sign 0, biased exponent 190, fraction 0
    ([0x5f000000]). *)
Definition two_to_63 : float := 1593835520.

(** ** Concrete inputs *)

Definition global_symbol (name : string) (t : LSLIType) : LSLSymbol :=
  {| sym_name := name; sym_itype := t; sym_subtype := SYM_GLOBAL |}.

Definition local_symbol (name : string) (t : LSLIType) : LSLSymbol :=
  {| sym_name := name; sym_itype := t; sym_subtype := SYM_LOCAL |}.

Definition identifier (name : string) (t : LSLIType) : LSLIdentifier :=
  {| id_name := name; id_itype := t |}.

(** The lvalue [name] or [name.member] of a symbol. *)
Definition lvalue_of (sym : LSLSymbol) (member : option string) : LSLLValue :=
  {| lv_symbol := sym;
     lv_identifier := identifier (sym_name sym) (sym_itype sym);
     lv_member := option_map (fun m => identifier m LST_FLOATINGPOINT) member |}.

Definition integer_constant (n : Z) : LSLExpression :=
  LSLConstantExpression LST_INTEGER (LSLIntegerConstant n).

(** The local integer [i] and the global vector [v]. *)
Definition local_i : LSLSymbol := local_symbol "i" LST_INTEGER.
Definition global_v : LSLSymbol := global_symbol "v" LST_VECTOR.

(** The handler of [state_entry] in the state [default], with an empty
    body. *)
Definition default_state : LSLSymbol := global_symbol "default" LST_NULL.
Definition state_entry : LSLEventHandler :=
  {| eh_identifier := identifier "state_entry" LST_NULL;
     eh_arguments := [];
     eh_statements := LSLCompoundStatement [] |}.

(** A script with the single handler above, a front end that accepts it
    and one that logs one error on it, and the worlds around them. *)
Definition minimal_script : LSLScript :=
  {| getGlobals := [];
     getStates := [{| st_symbol := default_state;
                      st_handlers := [state_entry] |}] |}.

Definition clean_front_end : FrontEnd :=
  {| fe_script := Some minimal_script;
     fe_parse_errors := 0; fe_pass_errors := 0; fe_validation_errors := 0;
     fe_report := "" |}.

Definition one_error_front_end : FrontEnd :=
  {| fe_script := Some minimal_script;
     fe_parse_errors := 0; fe_pass_errors := 1; fe_validation_errors := 0;
     fe_report := "TOTAL:: Errors: 1  Warnings: 0" ++ nl |}.

Definition world_of (fe : FrontEnd) (output_opens write_succeeds : bool)
  : World :=
  {| fopen_ok := fun _ => true;
     front_end := fun _ => fe;
     ofstream_good := fun _ => output_opens;
     ofstream_write_ok := fun _ => write_succeeds |}.


(** The value [main] returns, when it returns. *)
Definition exit_status (r : Fault + Outcome) : option Z :=
  match r with
  | inr o => Some (status o)
  | inl _ => None
  end.



(** A script with the globals [integer g;] and [string s = "hi";] around a
    function, and no state. *)
Definition two_globals_script : LSLScript :=
  {| getGlobals :=
       [NODE_GLOBAL_VARIABLE
          {| gv_identifier := identifier "g" LST_INTEGER;
             gv_symbol := global_symbol "g" LST_INTEGER;
             gv_initializer := None |};
        NODE_GLOBAL_FUNCTION
          {| gf_identifier := identifier "f" LST_NULL;
             gf_arguments := [];
             gf_statements := LSLCompoundStatement [] |};
        NODE_GLOBAL_VARIABLE
          {| gv_identifier := identifier "s" LST_STRING;
             gv_symbol := global_symbol "s" LST_STRING;
             gv_initializer :=
               Some (LSLConstantExpression LST_STRING
                       (LSLStringConstant "hi")) |}];
     getStates := [] |}.

(** ** Vocabulary of the further properties *)

(** A text that begins with [p], and one that ends with [s]. *)
Definition starts_with (p text : string) : Prop :=
  exists rest, text = p ++ rest.

Definition ends_with (s text : string) : Prop :=
  exists init, text = init ++ s.

(** [n] spaces. *)
Fixpoint spaces (n : nat) : string :=
  match n with
  | O => ""
  | S k => String " " (spaces k)
  end.

(** The global function a handler amounts to: the same arguments and body
    under the flattened name. *)
Definition handler_as_function (state_sym : LSLSymbol)
    (event_handler : LSLEventHandler) : LSLGlobalFunction :=
  {| gf_identifier :=
       {| id_name := "e" ++ sym_name state_sym
                     ++ id_name (eh_identifier event_handler);
          id_itype := id_itype (eh_identifier event_handler) |};
     gf_arguments := eh_arguments event_handler;
     gf_statements := eh_statements event_handler |}.

(** A computation whose result and text do not depend on the depth. *)
Definition DepthFree {A : Type} (m : M A) : Prop :=
  forall t t',
    match m {| mStr := ""; mTabs := t |}, m {| mStr := ""; mTabs := t' |} with
    | inl f, inl f' => f = f'
    | inr (a, v), inr (a', v') => a = a' /\ mStr v = mStr v'
    | _, _ => False
    end.

(** The front end's contract on a whole tree, as far as the generator relies
    on it: operators and members in the closed sets, the target of an
    assignment, increment or decrement an lvalue, a unit for the type of an
    increment in statement position, a default value for the type of a
    variable without initializer, and float constants that [writeFloat] can
    print (not integral, or integral within [int64_t]). *)
Definition float_printable (f : float) : bool :=
  negb (double_eq (nearbyint (to_double f)) (to_double f))
  || is_some (to_int64 f).

Fixpoint constant_printable (c : LSLConstant) : bool :=
  match c with
  | LSLIntegerConstant _ | LSLStringConstant _ | LSLKeyConstant _ => true
  | LSLFloatConstant f => float_printable f
  | LSLVectorConstant x y z =>
      float_printable x && float_printable y && float_printable z
  | LSLQuaternionConstant x y z s =>
      float_printable x && float_printable y && float_printable z
      && float_printable s
  | LSLListConstant children => forallb constant_printable children
  end.

Definition is_lvalue (e : LSLExpression) : bool :=
  match e with
  | LSLLValueExpression _ _ => true
  | _ => false
  end.

Definition member_of (e : LSLExpression) : option LSLIdentifier :=
  match e with
  | LSLLValueExpression _ lvalue => lv_member lvalue
  | _ => None
  end.

Fixpoint well_formed (e : LSLExpression) : bool :=
  match e with
  | LSLConstantExpression _ c => constant_printable c
  | LSLVectorExpression _ children
  | LSLQuaternionExpression _ children
  | LSLListExpression _ children => forallb well_formed children
  | LSLTypecastExpression _ child => well_formed child
  | LSLFunctionExpression _ _ arguments => forallb well_formed arguments
  | LSLLValueExpression _ lvalue => member_known (lv_member lvalue)
  | LSLBinaryExpression _ op _ lhs rhs =>
      binary_known op
      && match op with
         | OP_ASSIGN | OP_MUL_ASSIGN => is_lvalue lhs
         | _ => true
         end
      && well_formed lhs && well_formed rhs
  | LSLUnaryExpression _ op result_needed child =>
      unary_known op
      && (negb (is_incr_decr op)
          || (is_lvalue child
              && (result_needed || is_some (member_of child)
                  || is_some (getOneValue (getIType child)))))
      && well_formed child
  | LSLPrintExpression _ child
  | LSLParenthesisExpression _ child
  | LSLBoolConversionExpression _ child => well_formed child
  end.

Definition initializer_well_formed (initializer : option LSLExpression)
    (sym : LSLSymbol) : bool :=
  match initializer with
  | Some e => well_formed e
  | None => is_some (getDefaultValue (sym_itype sym))
  end.

Fixpoint statement_well_formed (s : LSLStatement) : bool :=
  match s with
  | LSLNopStatement | LSLJumpStatement _ | LSLLabel _
  | LSLStateStatement _ => true
  | LSLCompoundStatement children => forallb statement_well_formed children
  | LSLExpressionStatement expr => well_formed expr
  | LSLDeclaration sym initializer => initializer_well_formed initializer sym
  | LSLIfStatement check true_branch false_branch =>
      well_formed check && statement_well_formed true_branch
      && match false_branch with
         | Some false_branch => statement_well_formed false_branch
         | None => true
         end
  | LSLForStatement init_exprs check body incr_exprs =>
      forallb well_formed init_exprs && well_formed check
      && statement_well_formed body && forallb well_formed incr_exprs
  | LSLWhileStatement check body | LSLDoStatement body check =>
      well_formed check && statement_well_formed body
  | LSLReturnStatement expr =>
      match expr with
      | Some expr => well_formed expr
      | None => true
      end
  end.

Definition global_well_formed (glob : LSLGlobal) : bool :=
  match glob with
  | NODE_GLOBAL_VARIABLE glob_var =>
      initializer_well_formed (gv_initializer glob_var) (gv_symbol glob_var)
  | NODE_GLOBAL_FUNCTION glob_func =>
      statement_well_formed (gf_statements glob_func)
  end.

Definition script_well_formed (script : LSLScript) : bool :=
  forallb global_well_formed (getGlobals script)
  && forallb (fun state =>
                forallb (fun event_handler =>
                           statement_well_formed (eh_statements event_handler))
                  (st_handlers state))
       (getStates script).

(** A computation that ends without a fault, from every state. *)
Definition NoFault {A : Type} (m : M A) : Prop :=
  forall v, exists a v', m v = inr (a, v').

(** The floats whose value is an integer that no [int64_t] holds: the biased
    exponent is 190 or more (the magnitude is 2^63 or more, the infinities
    included), the pattern is no NaN, and it is not the pattern
    [0xdf000000] of -2^63. *)
Definition beyond_int64 (f : float) : bool :=
  (190 <=? biased_exponent f)
  && negb ((biased_exponent f =? 255) && negb (fraction f =? 0))
  && negb (f =? 3741319168).

(** The integer that a float is, when its value is one: the float is finite
    and its number of units of [2^-149] is a multiple of [2^149]. *)
Definition integer_value (f : float) : option Z :=
  if biased_exponent f =? 255 then None
  else if units f mod 2 ^ 149 =? 0 then Some (units f / 2 ^ 149)
  else None.

(** A world in which no input path opens. *)
Definition unreadable_world : World :=
  {| fopen_ok := fun _ => false;
     front_end := fun _ => clean_front_end;
     ofstream_good := fun _ => true;
     ofstream_write_ok := fun _ => true |}.

(** A front end whose parser gives no script and logs nothing. *)
Definition silent_null_front_end : FrontEnd :=
  {| fe_script := None;
     fe_parse_errors := 0; fe_pass_errors := 0; fe_validation_errors := 0;
     fe_report := "" |}.

(** * Properties *)

(** ** Text *)

Lemma append_assoc (a b c : string) : (a ++ b) ++ c = a ++ (b ++ c).
Proof. induction a as [|x a IH]; simpl; [reflexivity | now rewrite IH]. Qed.

Lemma append_nil_r (a : string) : a ++ "" = a.
Proof. induction a as [|x a IH]; simpl; [reflexivity | now rewrite IH]. Qed.

(** ** Writers *)

Lemma Writer_tabs {A : Type} (m : M A) (t : nat) (a : A) (v' : PythonVisitor) :
  Writer m -> m {| mStr := ""; mTabs := t |} = inr (a, v') -> mTabs v' = t.
Proof.
  intros Hm E. pose proof (Hm {| mStr := ""; mTabs := t |}) as Hv.
  simpl in Hv. rewrite E in Hv. now inversion Hv.
Qed.

Lemma Writer_ret {A : Type} (a : A) : Writer (ret a).
Proof. intros [s t]. unfold ret. simpl. now rewrite append_nil_r. Qed.

Lemma Writer_fail {A : Type} (f : Fault) : Writer (@fail A f).
Proof. intros v. reflexivity. Qed.

Lemma Writer_write (s : string) : Writer (write s).
Proof. intros v. reflexivity. Qed.

Lemma Writer_getTabs : Writer getTabs.
Proof. intros [s t]. unfold getTabs. simpl. now rewrite append_nil_r. Qed.

Lemma Writer_bind {A B : Type} (m : M A) (k : A -> M B) :
  Writer m -> (forall a, Writer (k a)) -> Writer (bind m k).
Proof.
  intros Hm Hk v. unfold bind. rewrite (Hm v).
  destruct (m {| mStr := ""; mTabs := mTabs v |}) as [f | [a v']] eqn:E;
    [reflexivity |].
  pose proof (Writer_tabs _ _ _ _ Hm E) as Ht.
  rewrite (Hk a v'), (Hk a {| mStr := mStr v ++ mStr v'; mTabs := mTabs v |}).
  simpl. rewrite Ht.
  destruct (k a {| mStr := ""; mTabs := mTabs v |}) as [f | [b v'']];
    [reflexivity |].
  simpl. now rewrite append_assoc.
Qed.

Lemma Writer_deref {A : Type} (p : option A) : Writer (deref p).
Proof. destruct p; [apply Writer_ret | apply Writer_fail]. Qed.

Lemma Writer_when (c : bool) (body : M unit) :
  Writer body -> Writer (when c body).
Proof. destruct c; [auto | intros _; apply Writer_ret]. Qed.

Lemma Writer_repeatM (n : nat) (body : M unit) :
  Writer body -> Writer (repeatM n body).
Proof.
  intros Hb. induction n as [|n IH]; simpl;
    [apply Writer_ret | apply Writer_bind; auto].
Qed.

Lemma Writer_doTabs : Writer doTabs.
Proof.
  apply Writer_bind; [apply Writer_getTabs |].
  intros n. apply Writer_repeatM, Writer_write.
Qed.

Lemma Writer_ScopedTabSetter (tabs : nat) (scope : M unit) :
  Writer scope -> Writer (ScopedTabSetter tabs scope).
Proof.
  intros Hs v. unfold ScopedTabSetter, bind, getTabs, setTabs. simpl.
  rewrite (Hs {| mStr := mStr v; mTabs := tabs |}). simpl.
  destruct (scope {| mStr := ""; mTabs := tabs |}) as [f | [[] v']];
    reflexivity.
Qed.

Lemma Writer_scope (scope : M unit) :
  Writer scope ->
  Writer (tabs <- getTabs ;; ScopedTabSetter (tabs + 1) scope).
Proof.
  intros Hs. apply Writer_bind; [apply Writer_getTabs |].
  intros n. now apply Writer_ScopedTabSetter.
Qed.

Lemma Writer_forEach {A : Type} (body : A -> M unit) (l : list A) :
  list_all A (fun a => Writer (body a)) l -> Writer (forEach body l).
Proof.
  induction 1; simpl; [apply Writer_ret | apply Writer_bind; auto].
Qed.

Lemma Writer_writeChildrenSep {A : Type} (visit : A -> M unit)
    (separator : string) (l : list A) :
  list_all A (fun a => Writer (visit a)) l ->
  Writer (writeChildrenSep visit separator l).
Proof.
  induction 1; simpl; [apply Writer_ret |].
  apply Writer_bind; [assumption | intros _].
  apply Writer_bind; [apply Writer_when, Writer_write | auto].
Qed.

Lemma list_all_of_forall {A : Type} (P : A -> Prop) (l : list A) :
  (forall a, P a) -> list_all A P l.
Proof. intros HP. induction l; constructor; auto. Qed.

Create HintDb writer discriminated.

#[export] Hint Resolve Writer_ret Writer_fail Writer_write Writer_getTabs
  Writer_deref Writer_when Writer_repeatM Writer_doTabs Writer_ScopedTabSetter
  Writer_scope : writer.

(** Decomposes a goal [Writer m] along the shape of [m]. *)
Ltac writer :=
  repeat first
    [ assumption
    | solve [auto with writer]
    | apply Writer_when
    | apply Writer_ScopedTabSetter
    | apply Writer_writeChildrenSep
    | apply Writer_forEach
    | apply list_all_of_forall; intros ?
    | apply Writer_bind; [| intros ?]
    | match goal with
      | |- Writer (if ?c then _ else _) => destruct c
      | |- Writer (match ?x with _ => _ end) => destruct x
      | |- Writer (let _ := _ in _) => cbv zeta
      end ].

(** ** The text of the building blocks *)

Lemma cat_nil_l (a : Fault + string) : inr "" +++ a = a.
Proof. destruct a; reflexivity. Qed.

Lemma cat_nil_r (a : Fault + string) : a +++ inr "" = a.
Proof. destruct a; simpl; [reflexivity | now rewrite append_nil_r]. Qed.

Lemma cat_assoc (a b c : Fault + string) : (a +++ b) +++ c = a +++ b +++ c.
Proof.
  destruct a as [|x], b as [|y], c as [|z]; simpl; try reflexivity.
  now rewrite append_assoc.
Qed.

Lemma cat_inr (x y : string) : inr x +++ inr y = inr (x ++ y).
Proof. reflexivity. Qed.

Lemma emit_ret {A : Type} (a : A) (t : nat) : emit (ret a) t = inr "".
Proof. reflexivity. Qed.

Lemma emit_fail {A : Type} (f : Fault) (t : nat) : emit (@fail A f) t = inl f.
Proof. reflexivity. Qed.

Lemma emit_write (s : string) (t : nat) : emit (write s) t = inr s.
Proof. reflexivity. Qed.

Lemma emit_bind_ret {A B : Type} (a : A) (k : A -> M B) (t : nat) :
  emit (bind (ret a) k) t = emit (k a) t.
Proof. reflexivity. Qed.

Lemma emit_bind_fail {A B : Type} (f : Fault) (k : A -> M B) (t : nat) :
  emit (bind (fail f) k) t = inl f.
Proof. reflexivity. Qed.

Lemma emit_seq {A : Type} (m : M unit) (k : M A) (t : nat) :
  Writer m -> Writer k -> emit (m ;; k) t = emit m t +++ emit k t.
Proof.
  intros Hm Hk. unfold emit, bind.
  destruct (m {| mStr := ""; mTabs := t |}) as [f | [[] v']] eqn:E;
    [reflexivity |].
  rewrite (Hk v'), (Writer_tabs _ _ _ _ Hm E).
  destruct (k {| mStr := ""; mTabs := t |}) as [f | [a v'']]; reflexivity.
Qed.

Lemma emit_when (c : bool) (body : M unit) (t : nat) :
  emit (when c body) t = if c then emit body t else inr "".
Proof. destruct c; reflexivity. Qed.

Lemma emit_if {A : Type} (c : bool) (a b : M A) (t : nat) :
  emit (if c then a else b) t = if c then emit a t else emit b t.
Proof. destruct c; reflexivity. Qed.

Lemma emit_repeatM (n t : nat) :
  emit (repeatM n (write "    ")) t = inr (indent n).
Proof.
  induction n as [|n IH]; [reflexivity |].
  simpl repeatM. rewrite emit_seq by auto with writer.
  now rewrite IH, emit_write.
Qed.

Lemma emit_doTabs (t : nat) : emit doTabs t = inr (indent t).
Proof. exact (emit_repeatM t t). Qed.

Lemma emit_scope (scope : M unit) (t : nat) :
  emit (tabs <- getTabs ;; ScopedTabSetter (tabs + 1) scope) t
  = emit scope (t + 1).
Proof.
  unfold emit, ScopedTabSetter, bind, getTabs, setTabs. simpl.
  destruct (scope {| mStr := ""; mTabs := (t + 1)%nat |}) as [f | [[] v']];
    reflexivity.
Qed.

Lemma emit_forEach {A : Type} (body : A -> M unit) (l : list A) (t : nat) :
  (forall a, Writer (body a)) ->
  emit (forEach body l) t = cat_all (fun a => emit (body a) t) l.
Proof.
  intros Hb. induction l as [|a l IH]; [reflexivity |].
  simpl forEach. rewrite emit_seq; [now rewrite IH | apply Hb |].
  apply Writer_forEach, list_all_of_forall, Hb.
Qed.

Lemma emit_writeChildrenSep {A : Type} (visit : A -> M unit)
    (separator : string) (l : list A) (t : nat) :
  (forall a, Writer (visit a)) ->
  emit (writeChildrenSep visit separator l) t
  = cat_sep (fun a => emit (visit a) t) separator l.
Proof.
  intros Hv. induction l as [|a l IH]; [reflexivity |].
  assert (Hl : Writer (writeChildrenSep visit separator l))
    by apply Writer_writeChildrenSep, list_all_of_forall, Hv.
  simpl writeChildrenSep.
  rewrite emit_seq; [| apply Hv | writer].
  rewrite emit_seq; [| writer | exact Hl].
  rewrite IH, emit_when. simpl cat_sep. now destruct l.
Qed.

(** ** The visits are writers *)

Section Writers.

Variable H : Host.

Lemma Writer_assert0 : Writer (assert0 H).
Proof. unfold assert0. writer. Qed.

Lemma Writer_writeFloat (f : float) : Writer (writeFloat H f).
Proof. unfold writeFloat. writer. Qed.

Lemma Writer_visit_constant (c : LSLConstant) : Writer (visit_constant H c).
Proof.
  pose proof Writer_writeFloat.
  induction c; simpl; writer.
Qed.

Lemma member_to_offset_eq (member : string) :
  member_to_offset H member
  = match coordinate_offset member with
    | Some offset => ret offset
    | None => assert0 H ;; ret 0
    end.
Proof.
  destruct member as [|[[] [] [] [] [] [] [] []] rest]; reflexivity.
Qed.

Lemma Writer_member_to_offset (member : string) :
  Writer (member_to_offset H member).
Proof.
  pose proof Writer_assert0.
  rewrite member_to_offset_eq. writer.
Qed.

Lemma Writer_visit_lvalue (lvalue : LSLLValue) :
  Writer (visit_lvalue H lvalue).
Proof.
  pose proof Writer_member_to_offset. unfold visit_lvalue. writer.
Qed.

Lemma Writer_constructMutatedMember sym member (visit_rhs : M unit) :
  Writer visit_rhs -> Writer (constructMutatedMember H sym member visit_rhs).
Proof.
  pose proof Writer_member_to_offset. intros Hr.
  unfold constructMutatedMember. writer.
Qed.

Lemma Writer_as_lvalue (e : LSLExpression) : Writer (as_lvalue e).
Proof. destruct e; simpl; writer. Qed.

Lemma Writer_visit_expr (e : LSLExpression) : Writer (visit_expr H e).
Proof.
  pose proof Writer_assert0. pose proof Writer_member_to_offset.
  pose proof Writer_visit_constant. pose proof Writer_visit_lvalue.
  pose proof Writer_as_lvalue.
  induction e; simpl;
    try solve [writer; apply Writer_constructMutatedMember; assumption].
Qed.

Lemma Writer_visit_initializer initializer sym :
  Writer (visit_initializer H initializer sym).
Proof.
  pose proof Writer_visit_expr. pose proof Writer_visit_constant.
  unfold visit_initializer. writer.
Qed.

Lemma Writer_visit_stmt (s : LSLStatement) : Writer (visit_stmt H s).
Proof.
  pose proof Writer_visit_expr. pose proof Writer_visit_initializer.
  induction s; simpl; try solve [writer].
  writer.
  match goal with
  | Hb : option_all _ _ (Some _) |- _ => now inversion Hb
  end.
Qed.

End Writers.

#[export] Hint Resolve Writer_assert0 Writer_writeFloat Writer_visit_constant
  Writer_member_to_offset Writer_visit_lvalue Writer_constructMutatedMember
  Writer_as_lvalue Writer_visit_expr Writer_visit_initializer
  Writer_visit_stmt : writer.

(** Rewrites the text of a sequence into the sequence of the texts. *)
Ltac emit_steps :=
  repeat first
    [ rewrite emit_seq by writer
    | rewrite emit_write
    | rewrite emit_when
    | rewrite emit_if
    | rewrite emit_doTabs
    | rewrite emit_scope
    | rewrite emit_bind_ret
    | rewrite emit_ret ].

(** Closes an equation between two texts that differ in bracketing. *)
Ltac text_eq :=
  repeat (rewrite ?append_assoc, ?append_nil_r; cbn [append cat]);
  try reflexivity.

(** Closes an equation between two sequences of results: every result
    that is no literal is split into its fault and its text. *)
Ltac results_eq :=
  repeat match goal with
         | |- context [cat ?a _] =>
             lazymatch a with
             | inr _ => fail
             | inl _ => fail
             | cat _ _ => fail
             | _ => destruct a
             end
         | |- context [cat _ ?b] =>
             lazymatch b with
             | inr _ => fail
             | inl _ => fail
             | cat _ _ => fail
             | _ => destruct b
             end
         end;
  text_eq.

(** ** Coordinate members *)

Lemma member_to_offset_first (H : Host) (c : ascii) (rest : string) :
  member_to_offset H (String c rest) = member_to_offset H (String c "").
Proof. destruct c as [[] [] [] [] [] [] [] []]; reflexivity. Qed.

Lemma coordinate_offset_first (c : ascii) (rest : string) :
  coordinate_offset (String c rest) = coordinate_offset (String c "").
Proof. destruct c as [[] [] [] [] [] [] [] []]; reflexivity. Qed.

Lemma emit_member_to_offset {A : Type} (H : Host) (member : string)
    (k : Z -> M A) (t : nat) :
  (forall n, Writer (k n)) ->
  emit (offset <- member_to_offset H member ;; k offset) t
  = match coordinate_offset member with
    | Some offset => emit (k offset) t
    | None => if NDEBUG H then emit (k 0) t else inl AssertionFailed
    end.
Proof.
  intros Hk. rewrite member_to_offset_eq.
  destruct (coordinate_offset member); [reflexivity |].
  unfold assert0. destruct (NDEBUG H); reflexivity.
Qed.

(** C10.  The offset of a coordinate member is decided by the first
    character of its name alone: x gives 0, y gives 1, z gives 2 and s gives
    3, whatever follows; any other first character, and the empty name, trips
    the assertion, and gives 0 when assertions are disabled.  A member access
    writes that offset as the index, and a member assignment passes it to the
    replacement helper. *)
Theorem member_offset_by_first_character (H : Host) :
  (forall c rest v,
     member_to_offset H (String c rest) v
     = if (c =? "x")%char then inr (0, v)
       else if (c =? "y")%char then inr (1, v)
       else if (c =? "z")%char then inr (2, v)
       else if (c =? "s")%char then inr (3, v)
       else if NDEBUG H then inr (0, v) else inl AssertionFailed)
  /\ (forall v,
        member_to_offset H "" v
        = if NDEBUG H then inr (0, v) else inl AssertionFailed)
  /\ (forall lvalue c rest ty t,
        lv_member lvalue = Some {| id_name := String c rest; id_itype := ty |} ->
        emit (visit_lvalue H lvalue) t
        = inr (self_prefix (lv_symbol lvalue)
               ++ id_name (lv_identifier lvalue) ++ "[")
          +++ emit (offset <- member_to_offset H (String c "") ;;
                    write (dec offset)) t
          +++ inr "]")
  /\ (forall sym c rest ty rhs t,
        emit (constructMutatedMember H sym
                {| id_name := String c rest; id_itype := ty |}
                (visit_expr H rhs)) t
        = inr ("replace_coord_axis(" ++ self_prefix sym ++ sym_name sym ++ ", ")
          +++ emit (offset <- member_to_offset H (String c "") ;;
                    write (dec offset)) t
          +++ inr ", " +++ emit (visit_expr H rhs) t +++ inr ")").
Proof.
  split; [| split; [| split]].
  - intros c rest v.
    destruct c as [[] [] [] [] [] [] [] []]; simpl; try reflexivity;
      unfold bind, assert0, ret, fail; destruct (NDEBUG H); reflexivity.
  - intros v. simpl. unfold bind, assert0, ret, fail.
    destruct (NDEBUG H); reflexivity.
  - intros lvalue c rest ty t Hm. unfold visit_lvalue. rewrite Hm.
    simpl id_name. rewrite (member_to_offset_first H c rest).
    unfold self_prefix. emit_steps.
    rewrite !emit_member_to_offset by (intros; writer).
    destruct (is_global (sym_subtype (lv_symbol lvalue))),
      (coordinate_offset (String c "")), (NDEBUG H);
      emit_steps; text_eq.
  - intros sym c rest ty rhs t. unfold constructMutatedMember.
    simpl id_name. rewrite (member_to_offset_first H c rest).
    rewrite !emit_member_to_offset by (intros; writer).
    unfold self_prefix.
    destruct (coordinate_offset (String c "")), (NDEBUG H);
      emit_steps; try reflexivity;
      destruct (is_global (sym_subtype sym)), (emit (visit_expr H rhs) t);
      text_eq.
Qed.

Lemma member_offset_by_first_character_witness :
  lv_member (lvalue_of global_v (Some "zenith"))
  = Some {| id_name := String "z" "enith"; id_itype := LST_FLOATINGPOINT |}
  /\ emit (visit_lvalue debug_host (lvalue_of global_v (Some "zenith"))) 0
     = inr "self.v[2]".
Proof.
  split; [reflexivity |].
  exact (eq_trans
           (proj1 (proj2 (proj2 (member_offset_by_first_character debug_host)))
              (lvalue_of global_v (Some "zenith")) "z"%char "enith"
              LST_FLOATINGPOINT 0%nat eq_refl)
           eq_refl).
Defined.

(** ** Binary operators *)

(** C2.  For every arithmetic, comparison, boolean and bitwise operator, each
    with the helper that [runtime_helpers] names for it, the emitted text is
    the call of that helper in which the translation of the right operand
    comes first and the translation of the left operand second, whatever the
    operands, the type of the node and the use of its value are. *)
Theorem binary_operands_right_first (H : Host) (ty : LSLIType)
    (op : LSLOperator) (result_needed : bool) (lhs rhs : LSLExpression)
    (name : string) (t : nat) :
  In (op, name) runtime_helpers ->
  emit (visit_expr H (LSLBinaryExpression ty op result_needed lhs rhs)) t
  = inr (name ++ "(") +++ emit (visit_expr H rhs) t +++ inr ", "
    +++ emit (visit_expr H lhs) t +++ inr ")".
Proof.
  intros Hin. unfold runtime_helpers in Hin. cbn [In] in Hin.
  repeat (destruct Hin as [E | Hin];
          [injection E as <- <-; cbn [visit_expr binary_helper];
           emit_steps; reflexivity |]).
  contradiction.
Qed.

Lemma binary_operands_right_first_witness :
  (In (OP_MINUS, "rsub") runtime_helpers
   /\ emit (visit_expr debug_host
              (LSLBinaryExpression LST_INTEGER OP_MINUS true
                 (integer_constant 7) (integer_constant 2))) 0
      = inr "rsub(2, 7)")
  /\ (In (OP_SHIFT_LEFT, "rshl") runtime_helpers
      /\ emit (visit_expr debug_host
                 (LSLBinaryExpression LST_INTEGER OP_SHIFT_LEFT false
                    (integer_constant 1) (integer_constant 4))) 0
         = inr "rshl(4, 1)").
Proof.
  assert (Hminus : In (OP_MINUS, "rsub") runtime_helpers)
    by (cbn; tauto).
  assert (Hshl : In (OP_SHIFT_LEFT, "rshl") runtime_helpers)
    by (cbn; tauto).
  split; (split; [assumption |]).
  - exact (binary_operands_right_first debug_host LST_INTEGER OP_MINUS true
             (integer_constant 7) (integer_constant 2) "rsub" 0%nat Hminus).
  - exact (binary_operands_right_first debug_host LST_INTEGER OP_SHIFT_LEFT
             false (integer_constant 1) (integer_constant 4) "rshl" 0%nat
             Hshl).
Defined.

(** The operators of the switch are these eighteen. *)
Lemma binary_helper_closed_set (op : LSLOperator) :
  binary_helper op <> None <->
  In op [OP_PLUS; OP_MINUS; OP_MUL; OP_DIV; OP_MOD; OP_EQ; OP_NEQ; OP_GREATER;
         OP_LESS; OP_GEQ; OP_LEQ; OP_BOOLEAN_AND; OP_BOOLEAN_OR; OP_BIT_AND;
         OP_BIT_OR; OP_BIT_XOR; OP_SHIFT_LEFT; OP_SHIFT_RIGHT].
Proof.
  split.
  - destruct op; simpl; intros Hn; try (now contradiction Hn); tauto.
  - intros Hin. simpl in Hin.
    repeat (destruct Hin as [<- | Hin]; [discriminate |]). contradiction.
Qed.

(** ** Assignment to a coordinate member *)

Lemma coordinate_members_offset (c : ascii) (rest : string) (offset : Z) :
  In (c, offset) coordinate_members ->
  coordinate_offset (String c rest) = Some offset.
Proof.
  unfold coordinate_members. simpl.
  intros [E | [E | [E | [E | []]]]]; injection E as <- <-; reflexivity.
Qed.

(** C3.  A plain assignment to the member x, y, z or s of a variable writes
    no store into the component: the right-hand side goes into a call of
    [replace_coord_axis] on the whole variable with the member's offset, and
    the result is bound to the variable itself (the attribute for a global);
    when the value is used, the rebinding is an expression and the new
    composite is indexed at the member's offset. *)
Theorem member_assignment_rebinds_whole (H : Host) (ty lhs_ty : LSLIType)
    (result_needed : bool) (lvalue : LSLLValue) (member : LSLIdentifier)
    (c : ascii) (rest : string) (offset : Z) (rhs : LSLExpression) (t : nat) :
  lv_member lvalue = Some member ->
  id_name member = String c rest ->
  In (c, offset) coordinate_members ->
  let sym := lv_symbol lvalue in
  let replaced :=
    inr ("replace_coord_axis(" ++ self_prefix sym ++ sym_name sym ++ ", "
         ++ dec offset ++ ", ")
    +++ emit (visit_expr H rhs) t +++ inr ")" in
  emit (visit_expr H
          (LSLBinaryExpression ty OP_ASSIGN result_needed
             (LSLLValueExpression lhs_ty lvalue) rhs)) t
  = if result_needed
    then inr (rebind_open sym) +++ replaced
         +++ inr (")[" ++ dec offset ++ "]")
    else inr (self_prefix sym ++ sym_name sym ++ " = ") +++ replaced.
Proof.
  intros Hm Hn Hin sym replaced. subst replaced sym.
  apply (coordinate_members_offset c rest) in Hin. rewrite <- Hn in Hin.
  cbn [visit_expr as_lvalue]. rewrite emit_bind_ret, Hm.
  unfold constructMutatedMember, self_prefix, rebind_open.
  destruct result_needed; cbn [negb]; emit_steps;
    rewrite !emit_member_to_offset by (intros; writer);
    rewrite Hin; emit_steps;
    destruct (is_global (sym_subtype (lv_symbol lvalue))),
      (emit (visit_expr H rhs) t);
    text_eq.
Qed.

Lemma member_assignment_rebinds_whole_witness :
  (lv_member (lvalue_of global_v (Some "x"))
   = Some (identifier "x" LST_FLOATINGPOINT)
   /\ id_name (identifier "x" LST_FLOATINGPOINT) = String "x" ""
   /\ In ("x"%char, 0) coordinate_members)
  /\ emit (visit_expr debug_host
             (LSLBinaryExpression LST_FLOATINGPOINT OP_ASSIGN false
                (LSLLValueExpression LST_FLOATINGPOINT
                   (lvalue_of global_v (Some "x")))
                (integer_constant 5))) 0
     = inr "self.v = replace_coord_axis(self.v, 0, 5)".
Proof.
  split; [repeat split; simpl; auto |].
  exact (member_assignment_rebinds_whole debug_host LST_FLOATINGPOINT
           LST_FLOATINGPOINT false (lvalue_of global_v (Some "x"))
           (identifier "x" LST_FLOATINGPOINT) "x"%char "" 0
           (integer_constant 5) 0%nat eq_refl eq_refl (or_introl eq_refl)).
Defined.

(** ** Increment and decrement *)

(** C6.  For each of pre-increment, pre-decrement, post-increment and
    post-decrement, with the helper and the compound assignment that
    [incr_decr_forms] gives it: when the result is not needed and the target
    is no coordinate member, the text is the statement that adds (for an
    increment) or subtracts (for a decrement) the unit of the operand's type
    on the target, with the attribute marker for a global.  In every other
    case it is one call of the operator's own helper ([preincr], [predecr],
    [postincr], [postdecr]) on the container of the variable (the attribute
    table of the instance for a global, the table of local bindings
    otherwise), the name of the variable and, for a coordinate member, the
    offset of the member. *)
Theorem increment_decrement_forms (H : Host) (ty child_ty : LSLIType)
    (op : LSLOperator) (form : IncrDecrForm) (result_needed : bool)
    (lvalue : LSLLValue) (t : nat) :
  In (op, form) incr_decr_forms ->
  let sym := lv_symbol lvalue in
  emit (visit_expr H
          (LSLUnaryExpression ty op result_needed
             (LSLLValueExpression child_ty lvalue))) t
  = match result_needed, lv_member lvalue with
    | false, None =>
        inr (self_prefix sym ++ sym_name sym ++ statement_operator form)
        +++ match getOneValue child_ty with
            | Some one => emit (visit_constant H one) t
            | None => inl NullPointer
            end
    | _, None =>
        inr (helper_name form ++ "(" ++ container sym ++ ", "
             ++ dquote ++ sym_name sym ++ dquote ++ ")")
    | _, Some member =>
        inr (helper_name form ++ "(" ++ container sym ++ ", "
             ++ dquote ++ sym_name sym ++ dquote ++ ", ")
        +++ emit (offset <- member_to_offset H (id_name member) ;;
                  write (dec offset)) t
        +++ inr ")"
    end.
Proof.
  intros Hin sym. subst sym.
  unfold incr_decr_forms in Hin. cbn [In] in Hin.
  destruct Hin as [E | [E | [E | [E | []]]]]; injection E as <- <-;
    cbn [visit_expr getIType is_incr_decr is_post is_negative as_lvalue
         helper_name statement_operator];
    rewrite emit_bind_ret;
    unfold container, self_prefix;
    (destruct (lv_member lvalue) as [member |], result_needed;
     cbn [is_some orb]; emit_steps;
     try (destruct (getOneValue child_ty) as [one |]; cbn [deref];
          rewrite ?emit_bind_ret, ?emit_bind_fail;
          [destruct (emit (visit_constant H one) t) |]);
     try (generalize (emit (offset <- member_to_offset H (id_name member) ;;
                            write (dec offset)) t);
          intros [|]);
     destruct (is_global (sym_subtype (lv_symbol lvalue)));
     text_eq).
Qed.

Lemma increment_decrement_forms_witness :
  (In (OP_PRE_INCR,
       {| helper_name := "preincr"; statement_operator := " += " |})
      incr_decr_forms
   /\ In (OP_POST_DECR,
          {| helper_name := "postdecr"; statement_operator := " -= " |})
         incr_decr_forms)
  /\ emit (visit_expr debug_host
             (LSLUnaryExpression LST_INTEGER OP_PRE_INCR false
                (LSLLValueExpression LST_INTEGER (lvalue_of local_i None)))) 0
     = inr "i += 1"
  /\ emit (visit_expr debug_host
             (LSLUnaryExpression LST_INTEGER OP_PRE_INCR true
                (LSLLValueExpression LST_INTEGER (lvalue_of local_i None)))) 0
     = inr ("preincr(locals(), " ++ dquote ++ "i" ++ dquote ++ ")")
  /\ emit (visit_expr debug_host
             (LSLUnaryExpression LST_INTEGER OP_POST_DECR false
                (LSLLValueExpression LST_INTEGER (lvalue_of local_i None)))) 0
     = inr "i -= 1"
  /\ emit (visit_expr debug_host
             (LSLUnaryExpression LST_FLOATINGPOINT OP_POST_DECR false
                (LSLLValueExpression LST_VECTOR
                   (lvalue_of global_v (Some "y"))))) 0
     = inr ("postdecr(self.__dict__, " ++ dquote ++ "v" ++ dquote ++ ", 1)").
Proof.
  assert (Hpre : In (OP_PRE_INCR,
                     {| helper_name := "preincr";
                        statement_operator := " += " |}) incr_decr_forms)
    by (cbn; tauto).
  assert (Hpost : In (OP_POST_DECR,
                      {| helper_name := "postdecr";
                         statement_operator := " -= " |}) incr_decr_forms)
    by (cbn; tauto).
  split; [split; assumption |]. split; [| split; [| split]].
  - exact (increment_decrement_forms debug_host LST_INTEGER LST_INTEGER
             OP_PRE_INCR _ false (lvalue_of local_i None) 0%nat Hpre).
  - exact (increment_decrement_forms debug_host LST_INTEGER LST_INTEGER
             OP_PRE_INCR _ true (lvalue_of local_i None) 0%nat Hpre).
  - exact (increment_decrement_forms debug_host LST_INTEGER LST_INTEGER
             OP_POST_DECR _ false (lvalue_of local_i None) 0%nat Hpost).
  - exact (increment_decrement_forms debug_host LST_FLOATINGPOINT LST_VECTOR
             OP_POST_DECR _ false (lvalue_of global_v (Some "y")) 0%nat
             Hpost).
Defined.

(** ** The counted loop *)

(** The text of the clauses of a loop header: each clause an expression
    statement of its own at depth [t]. *)
Lemma emit_clauses (H : Host) (clauses : list LSLExpression) (t : nat) :
  emit (forEach (fun clause => doTabs ;; visit_expr H clause ;; write nl)
          clauses) t
  = cat_all (fun clause =>
               inr (indent t) +++ emit (visit_expr H clause) t +++ inr nl)
      clauses.
Proof.
  rewrite emit_forEach by (intros; writer).
  induction clauses as [| clause rest IH]; [reflexivity |].
  cbn [cat_all]. rewrite IH. emit_steps. reflexivity.
Qed.

(** C5.  A counted loop with init clauses, a condition, a body and increment
    clauses becomes: the init clauses in order, each a statement before the
    loop; then [while True:] whose block is the test [if not] of the
    condition with [break], the body, and the increment clauses in order.
    The loop construct written is always this unconditional [while]. *)
Theorem for_statement_translation (H : Host) (init_exprs : list LSLExpression)
    (check : LSLExpression) (body : LSLStatement)
    (incr_exprs : list LSLExpression) (t : nat) :
  emit (visit_stmt H (LSLForStatement init_exprs check body incr_exprs)) t
  = cat_all (fun clause =>
               inr (indent t) +++ emit (visit_expr H clause) t +++ inr nl)
      init_exprs
    +++ inr (indent t ++ "while True:" ++ nl)
    +++ inr (indent (t + 1) ++ "if not ")
    +++ emit (visit_expr H check) (t + 1)
    +++ inr (":" ++ nl ++ indent (t + 1 + 1) ++ "break" ++ nl)
    +++ emit (visit_stmt H body) (t + 1)
    +++ cat_all (fun clause =>
                   inr (indent (t + 1)) +++ emit (visit_expr H clause) (t + 1)
                   +++ inr nl)
          incr_exprs.
Proof.
  cbn [visit_stmt].
  rewrite emit_seq by writer. rewrite emit_clauses.
  rewrite emit_seq by writer. rewrite emit_seq by writer.
  rewrite emit_scope. emit_steps. rewrite emit_clauses.
  f_equal.
  destruct (emit (visit_expr H check) (t + 1)),
    (emit (visit_stmt H body) (t + 1)),
    (cat_all _ incr_exprs); text_eq.
Qed.

(** [for (i = 0; i < 10; ++i) ;] at depth 1. *)
Example for_statement_example :
  emit (visit_stmt debug_host
          (LSLForStatement
             [LSLBinaryExpression LST_INTEGER OP_ASSIGN false
                (LSLLValueExpression LST_INTEGER (lvalue_of local_i None))
                (integer_constant 0)]
             (LSLBinaryExpression LST_INTEGER OP_LESS true
                (LSLLValueExpression LST_INTEGER (lvalue_of local_i None))
                (integer_constant 10))
             LSLNopStatement
             [LSLUnaryExpression LST_INTEGER OP_PRE_INCR false
                (LSLLValueExpression LST_INTEGER (lvalue_of local_i None))])) 1
  = inr ("    i = 0" ++ nl
         ++ "    while True:" ++ nl
         ++ "        if not rless(10, i):" ++ nl
         ++ "            break" ++ nl
         ++ "        pass" ++ nl
         ++ "        i += 1" ++ nl).
Proof. reflexivity. Qed.

(** ** Functions and event handlers *)

Lemma Writer_visit_arguments (arguments : list LSLIdentifier) :
  Writer (visit_arguments arguments).
Proof. unfold visit_arguments. writer. Qed.

Lemma emit_visit_arguments (arguments : list LSLIdentifier) (t : nat) :
  emit (visit_arguments arguments) t = inr (parameters_text arguments).
Proof.
  unfold visit_arguments, parameters_text.
  rewrite emit_forEach by (intros; writer).
  induction arguments as [| arg rest IH]; [reflexivity |].
  cbn [cat_all concat_map]. rewrite IH. emit_steps. text_eq.
Qed.

#[export] Hint Resolve Writer_visit_arguments : writer.

(** C7, as the code has it.  The method of an event handler is named by the
    letter e followed by the name of the owning state and the name of the
    event; the [def] line is preceded by the decorator that makes goto and
    label available in the body, and the body is one level deeper. *)
Theorem event_handler_method (H : Host) (state_sym : LSLSymbol)
    (event_handler : LSLEventHandler) (t : nat) :
  emit (visit_event_handler H state_sym event_handler) t
  = method_text
      ("e" ++ sym_name state_sym ++ id_name (eh_identifier event_handler))
      (eh_arguments event_handler)
      (id_itype (eh_identifier event_handler))
      (emit (visit_stmt H (eh_statements event_handler)) (t + 1)) t.
Proof.
  unfold visit_event_handler, method_text.
  emit_steps. rewrite emit_visit_arguments.
  destruct (emit (visit_stmt H (eh_statements event_handler)) (t + 1));
    text_eq.
Qed.

(** C7 as the specification words it does not hold: the method of
    [state_entry] in the state [default] is not called
    [defaultstate_entry]. *)
Lemma event_handler_name_not_plain_concatenation :
  emit (visit_event_handler debug_host default_state state_entry) 0
  = inr ("@with_goto" ++ nl ++ "def edefaultstate_entry(self) -> None:" ++ nl
         ++ "    pass" ++ nl ++ nl)
  /\ emit (visit_event_handler debug_host default_state state_entry) 0
     <> method_text
          (sym_name default_state ++ id_name (eh_identifier state_entry))
          (eh_arguments state_entry) (id_itype (eh_identifier state_entry))
          (emit (visit_stmt debug_host (eh_statements state_entry)) 1) 0.
Proof.
  split; [reflexivity |]. vm_compute. discriminate.
Qed.

(** ** The script and its globals *)

Lemma emit_forEach_variables (body : LSLGlobalVariable -> M unit)
    (globals : list LSLGlobal) (t : nat) :
  (forall glob_var, Writer (body glob_var)) ->
  emit (forEach (fun glob =>
                   match glob with
                   | NODE_GLOBAL_VARIABLE glob_var => body glob_var
                   | _ => ret tt
                   end) globals) t
  = cat_all (fun glob_var => emit (body glob_var) t) (global_variables globals).
Proof.
  intros Hb. rewrite emit_forEach by (intros []; writer).
  induction globals as [| [glob_var | glob_func] rest IH];
    cbn [cat_all global_variables]; rewrite ?IH; [reflexivity .. |].
  rewrite emit_ret. apply cat_nil_l.
Qed.

Lemma emit_forEach_functions (body : LSLGlobalFunction -> M unit)
    (globals : list LSLGlobal) (t : nat) :
  (forall glob_func, Writer (body glob_func)) ->
  emit (forEach (fun glob =>
                   match glob with
                   | NODE_GLOBAL_FUNCTION glob_func => body glob_func
                   | _ => ret tt
                   end) globals) t
  = cat_all (fun glob_func => emit (body glob_func) t)
      (global_functions globals).
Proof.
  intros Hb. rewrite emit_forEach by (intros []; writer).
  induction globals as [| [glob_var | glob_func] rest IH];
    cbn [cat_all global_functions]; rewrite ?IH; [reflexivity | | reflexivity].
  rewrite emit_ret. apply cat_nil_l.
Qed.

Lemma cat_all_inr {A : Type} (f : A -> string) (l : list A) :
  cat_all (fun a => inr (f a)) l = inr (concat_map f l).
Proof.
  induction l as [| a l IH]; [reflexivity |].
  cbn [cat_all concat_map]. now rewrite IH.
Qed.

Lemma cat_all_ext {A : Type} (f g : A -> Fault + string) (l : list A) :
  (forall a, f a = g a) -> cat_all f l = cat_all g l.
Proof.
  intros Hfg. induction l as [| a l IH]; [reflexivity |].
  cbn [cat_all]. now rewrite Hfg, IH.
Qed.

Lemma Writer_visit_global_variable (H : Host) glob_var :
  Writer (visit_global_variable H glob_var).
Proof. unfold visit_global_variable. writer. Qed.

Lemma Writer_visit_global_function (H : Host) glob_func :
  Writer (visit_global_function H glob_func).
Proof. unfold visit_global_function. writer. Qed.

Lemma Writer_visit_event_handler (H : Host) state_sym event_handler :
  Writer (visit_event_handler H state_sym event_handler).
Proof. unfold visit_event_handler. writer. Qed.

Lemma Writer_visit_state (H : Host) state : Writer (visit_state H state).
Proof.
  pose proof (Writer_visit_event_handler H). unfold visit_state. writer.
Qed.

#[export] Hint Resolve Writer_visit_global_variable
  Writer_visit_global_function Writer_visit_event_handler
  Writer_visit_state : writer.

Lemma Writer_visit_script (H : Host) script : Writer (visit_script H script).
Proof. unfold visit_script. writer. Qed.

#[export] Hint Resolve Writer_visit_script : writer.

Lemma emit_visit_initializer (H : Host) (glob_var : LSLGlobalVariable)
    (t : nat) :
  emit (visit_initializer H (gv_initializer glob_var) (gv_symbol glob_var)) t
  = initial_value_text H glob_var t.
Proof.
  unfold visit_initializer, initial_value_text.
  destruct (gv_initializer glob_var); [reflexivity |].
  destruct (getDefaultValue _); reflexivity.
Qed.

Lemma emit_visit_global_variable (H : Host) (glob_var : LSLGlobalVariable)
    (t : nat) :
  emit (visit_global_variable H glob_var) t
  = inr (indent t ++ "self." ++ sym_name (gv_symbol glob_var) ++ " = ")
    +++ initial_value_text H glob_var t +++ inr nl.
Proof.
  unfold visit_global_variable. emit_steps. rewrite emit_visit_initializer.
  destruct (initial_value_text H glob_var t); text_eq.
Qed.

(** C4.  The class body starts with one type declaration for every global
    variable, in source order, whether or not the variable has an
    initializer; [__init__] then assigns every global variable in the same
    order, the declared initializer when there is one and the zero-value of
    the type otherwise (0, 0.0, the empty string, the empty key, the all-zero
    vector and quaternion, the empty list). *)
Theorem globals_declared_then_initialised (H : Host) (script : LSLScript)
    (t : nat) :
  let variables := global_variables (getGlobals script) in
  emit (visit_script H script) t
  = inr ("from lummao import *" ++ nl ++ nl ++ nl
         ++ "class Script(BaseLSLScript):" ++ nl
         ++ concat_map
              (fun glob_var =>
                 indent (t + 1) ++ id_name (gv_identifier glob_var) ++ ": "
                 ++ PY_TYPE_NAMES (id_itype (gv_identifier glob_var)) ++ nl)
              variables
         ++ nl
         ++ indent (t + 1) ++ "def __init__(self):" ++ nl
         ++ indent (t + 1 + 1) ++ "super().__init__()" ++ nl)
    +++ cat_all
          (fun glob_var =>
             inr (indent (t + 1 + 1) ++ "self."
                  ++ sym_name (gv_symbol glob_var) ++ " = ")
             +++ initial_value_text H glob_var (t + 1 + 1) +++ inr nl)
          variables
    +++ inr nl
    +++ cat_all (fun glob_func => emit (visit_global_function H glob_func) (t + 1))
          (global_functions (getGlobals script))
    +++ cat_all (fun state => emit (visit_state H state) (t + 1))
          (getStates script)
  /\ forall ty default,
       getDefaultValue ty = Some default ->
       emit (visit_constant H default) t = inr (zero_value_text H ty).
Proof.
  intros variables. subst variables. split.
  - unfold visit_script. emit_steps.
    rewrite !emit_forEach_variables by (intros; writer).
    rewrite emit_forEach_functions by (intros; writer).
    rewrite emit_forEach by (intros; writer).
    rewrite (cat_all_ext _ _ _
               (fun glob_var => emit_visit_global_variable H glob_var _)).
    match goal with
    | |- context [cat_all ?f (global_variables ?l)] =>
        lazymatch f with
        | (fun g => emit _ _) =>
            rewrite (cat_all_ext f
              (fun g => inr (indent (t + 1) ++ id_name (gv_identifier g) ++ ": "
                             ++ PY_TYPE_NAMES (id_itype (gv_identifier g))
                             ++ nl)))
              by (intros; emit_steps; text_eq)
        end
    end.
    rewrite cat_all_inr.
    results_eq.
  - intros ty default Hd.
    destruct ty; try discriminate Hd; injection Hd as <-; reflexivity.
Qed.

Lemma globals_declared_then_initialised_witness :
  getDefaultValue LST_VECTOR = Some (LSLVectorConstant 0 0 0)
  /\ emit (visit_constant debug_host (LSLVectorConstant 0 0 0)) 0
     = inr "Vector((0.0, 0.0, 0.0))"
  /\ emit (visit_script debug_host two_globals_script) 0
     = inr ("from lummao import *" ++ nl ++ nl ++ nl
            ++ "class Script(BaseLSLScript):" ++ nl
            ++ "    g: int" ++ nl
            ++ "    s: str" ++ nl
            ++ nl
            ++ "    def __init__(self):" ++ nl
            ++ "        super().__init__()" ++ nl
            ++ "        self.g = 0" ++ nl
            ++ "        self.s = " ++ dquote ++ "hi" ++ dquote ++ nl
            ++ nl
            ++ "    @with_goto" ++ nl
            ++ "    def f(self) -> None:" ++ nl
            ++ "        pass" ++ nl
            ++ nl).
Proof.
  split; [reflexivity |]. split.
  - exact (proj2 (globals_declared_then_initialised debug_host
                    two_globals_script 0%nat)
             LST_VECTOR (LSLVectorConstant 0 0 0) eq_refl).
  - exact (eq_trans
             (proj1 (globals_declared_then_initialised debug_host
                       two_globals_script 0%nat))
             eq_refl).
Defined.

(** ** Operators and members outside the closed sets *)

Lemma NoAssert_ret {A : Type} (a : A) : NoAssert (ret a).
Proof. intros v. discriminate. Qed.

Lemma NoAssert_write (s : string) : NoAssert (write s).
Proof. intros v. discriminate. Qed.

Lemma NoAssert_fail {A : Type} (f : Fault) :
  f <> AssertionFailed -> NoAssert (@fail A f).
Proof. intros Hf v [= E]. auto. Qed.

Lemma NoAssert_bind {A B : Type} (m : M A) (k : A -> M B) :
  NoAssert m -> (forall a, NoAssert (k a)) -> NoAssert (bind m k).
Proof.
  intros Hm Hk v. unfold bind.
  destruct (m v) as [f | [a v']] eqn:E; [| apply Hk].
  intros [= ->]. exact (Hm v E).
Qed.

Lemma NoAssert_when (c : bool) (body : M unit) :
  NoAssert body -> NoAssert (when c body).
Proof. destruct c; [auto | intros _; apply NoAssert_ret]. Qed.

Lemma NoAssert_deref {A : Type} (p : option A) : NoAssert (deref p).
Proof.
  destruct p; [apply NoAssert_ret | apply NoAssert_fail; discriminate].
Qed.

Lemma NoAssert_writeChildrenSep {A : Type} (visit : A -> M unit)
    (separator : string) (l : list A) :
  list_all A (fun a => NoAssert (visit a)) l ->
  NoAssert (writeChildrenSep visit separator l).
Proof.
  induction 1; simpl; [apply NoAssert_ret |].
  apply NoAssert_bind; [assumption | intros _].
  apply NoAssert_bind; [apply NoAssert_when, NoAssert_write | auto].
Qed.

Lemma NoAssert_as_lvalue (e : LSLExpression) : NoAssert (as_lvalue e).
Proof.
  destruct e; simpl;
    solve [apply NoAssert_ret | apply NoAssert_fail; discriminate].
Qed.

Create HintDb noassert discriminated.

#[export] Hint Resolve NoAssert_ret NoAssert_write NoAssert_when
  NoAssert_deref NoAssert_as_lvalue : noassert.

(** Decomposes a goal [NoAssert m] along the shape of [m]. *)
Ltac noassert :=
  repeat first
    [ assumption
    | solve [auto with noassert]
    | apply NoAssert_fail; discriminate
    | apply NoAssert_writeChildrenSep
    | apply NoAssert_bind; [| intros ?]
    | match goal with
      | |- NoAssert (if ?c then _ else _) => destruct c
      | |- NoAssert (match ?x with _ => _ end) => destruct x
      | |- NoAssert (let _ := _ in _) => cbv zeta
      end ].

Section ClosedSets.

Variable H : Host.

Lemma NoAssert_writeFloat (f : float) : NoAssert (writeFloat H f).
Proof. unfold writeFloat. noassert. Qed.

Lemma NoAssert_visit_constant (c : LSLConstant) :
  NoAssert (visit_constant H c).
Proof.
  pose proof NoAssert_writeFloat. induction c; simpl; noassert.
Qed.

Lemma NoAssert_member_to_offset (member : string) :
  is_some (coordinate_offset member) = true ->
  NoAssert (member_to_offset H member).
Proof.
  intros Hm. rewrite member_to_offset_eq.
  destruct (coordinate_offset member); [noassert | discriminate Hm].
Qed.

Lemma NoAssert_member_index (member : option LSLIdentifier) (k : Z -> M unit) :
  member_known member = true ->
  (forall n, NoAssert (k n)) ->
  NoAssert match member with
           | Some member =>
               write "[" ;;
               offset <- member_to_offset H (id_name member) ;; k offset
           | None => ret tt
           end.
Proof.
  intros Hm Hk. destruct member as [member |]; [| noassert].
  pose proof (NoAssert_member_to_offset _ Hm). noassert.
Qed.

Lemma NoAssert_visit_lvalue (lvalue : LSLLValue) :
  member_known (lv_member lvalue) = true -> NoAssert (visit_lvalue H lvalue).
Proof.
  intros Hm. unfold visit_lvalue.
  apply NoAssert_bind; [noassert | intros _].
  apply NoAssert_bind; [noassert | intros _].
  apply NoAssert_member_index; [assumption | intros; noassert].
Qed.

Lemma NoAssert_constructMutatedMember sym member (visit_rhs : M unit) :
  is_some (coordinate_offset (id_name member)) = true ->
  NoAssert visit_rhs ->
  NoAssert (constructMutatedMember H sym member visit_rhs).
Proof.
  intros Hm Hr. pose proof (NoAssert_member_to_offset _ Hm).
  unfold constructMutatedMember. noassert.
Qed.

Lemma list_all_forallb (P : LSLExpression -> Prop) (l : list LSLExpression) :
  list_all LSLExpression (fun e => in_closed_sets e = true -> P e) l ->
  forallb in_closed_sets l = true ->
  list_all LSLExpression P l.
Proof.
  induction 1 as [| e He l Hl IH]; simpl; intros Hf; constructor;
    apply andb_prop in Hf; destruct Hf; auto.
Qed.

Lemma NoAssert_bind_fail {A B : Type} (f : Fault) (k : A -> M B) :
  f <> AssertionFailed -> NoAssert (bind (fail f) k).
Proof. intros Hf v [= E]. auto. Qed.

Lemma NoAssert_bind_ret {A B : Type} (a : A) (k : A -> M B) :
  NoAssert (k a) -> NoAssert (bind (ret a) k).
Proof. intros Hk v. exact (Hk v). Qed.

Lemma NoAssert_visit_expr (e : LSLExpression) :
  in_closed_sets e = true -> NoAssert (visit_expr H e).
Proof.
  pose proof NoAssert_visit_constant.
  induction e; cbn [in_closed_sets]; intros Hc;
    repeat match goal with
           | Hl : list_all _ _ ?l, Hf : forallb _ ?l = true |- _ =>
               apply (list_all_forallb _ _ Hl) in Hf; clear Hl
           | Hc : _ && _ = true |- _ =>
               apply andb_prop in Hc; destruct Hc
           | IH : ?c = true -> _, Hc : ?c = true |- _ => specialize (IH Hc)
           end;
    cbn [visit_expr]; try solve [noassert].
  - now apply NoAssert_visit_lvalue.
  - (* binary *)
    destruct op; try discriminate; cbn [binary_helper]; try solve [noassert].
    (* assignment: the target is cast to an lvalue *)
    destruct e1; cbn [as_lvalue];
      try (apply NoAssert_bind_fail; discriminate).
    apply NoAssert_bind_ret.
    cbn [in_closed_sets] in *. unfold member_known in *.
    destruct (lv_member lvalue) as [member |]; [| noassert].
    pose proof (NoAssert_member_to_offset _ ltac:(eassumption)).
    pose proof (NoAssert_constructMutatedMember (lv_symbol lvalue) member
                  _ ltac:(eassumption) IHe2).
    noassert.
  - (* unary *)
    unfold unary_known in *.
    destruct (is_incr_decr op) eqn:Hop.
    + destruct e; cbn [as_lvalue];
        try (apply NoAssert_bind_fail; discriminate).
      apply NoAssert_bind_ret.
      cbn [in_closed_sets] in *. unfold member_known in *.
      pose proof NoAssert_visit_constant.
      destruct (lv_member lvalue) as [member |]; [| noassert].
      pose proof (NoAssert_member_to_offset _ ltac:(eassumption)).
      noassert.
    + destruct (unary_helper op); [noassert | discriminate].
Qed.

End ClosedSets.

(** C8, as the code has it.  An operator that the visit of its node does not
    know, or a member that does not start with x, y, z or s, reaches
    [assert(0)].  With assertions enabled the generator stops there, having
    reported nothing.  With assertions disabled it goes on: the operator's
    call is written with the placeholder [<ERROR>] where the helper's name
    would be, and the member's offset is 0.  On a tree whose operators and
    members are all in the closed sets no assertion is reached. *)
Theorem outside_closed_sets (H : Host) :
  (NDEBUG H = false ->
   (forall ty op result_needed lhs rhs v,
      binary_known op = false ->
      visit_expr H (LSLBinaryExpression ty op result_needed lhs rhs) v
      = inl AssertionFailed)
   /\ (forall ty op result_needed child v,
         unary_known op = false ->
         visit_expr H (LSLUnaryExpression ty op result_needed child) v
         = inl AssertionFailed)
   /\ (forall member v,
         coordinate_offset member = None ->
         member_to_offset H member v = inl AssertionFailed))
  /\ (NDEBUG H = true ->
      (forall ty op result_needed lhs rhs t,
         binary_known op = false ->
         emit (visit_expr H (LSLBinaryExpression ty op result_needed lhs rhs)) t
         = inr "<ERROR>" +++ emit (visit_expr H rhs) t +++ inr ", "
           +++ emit (visit_expr H lhs) t +++ inr ")")
      /\ (forall ty op result_needed child t,
            unary_known op = false ->
            emit (visit_expr H (LSLUnaryExpression ty op result_needed child)) t
            = inr "<ERROR>" +++ emit (visit_expr H child) t +++ inr ")")
      /\ (forall member v,
            coordinate_offset member = None ->
            member_to_offset H member v = inr (0, v)))
  /\ (forall e v, in_closed_sets e = true ->
                  visit_expr H e v <> inl AssertionFailed).
Proof.
  split; [| split].
  - intros Hd. repeat split.
    + intros ty op rn lhs rhs v Hop.
      destruct op; try discriminate Hop;
        cbn [visit_expr binary_helper]; unfold bind, assert0; rewrite Hd;
        reflexivity.
    + intros ty op rn child v Hop. unfold unary_known in Hop.
      apply orb_false_elim in Hop. destruct Hop as [Hi Hu].
      cbn [visit_expr]. rewrite Hi.
      destruct (unary_helper op); [discriminate Hu |].
      unfold bind, assert0. rewrite Hd. reflexivity.
    + intros member v Hm. rewrite member_to_offset_eq, Hm.
      unfold bind, assert0. rewrite Hd. reflexivity.
  - intros Hd. repeat split.
    + intros ty op rn lhs rhs t Hop.
      destruct op; try discriminate Hop;
        cbn [visit_expr binary_helper]; unfold assert0; rewrite Hd;
        emit_steps; reflexivity.
    + intros ty op rn child t Hop. unfold unary_known in Hop.
      apply orb_false_elim in Hop. destruct Hop as [Hi Hu].
      cbn [visit_expr]. rewrite Hi.
      destruct (unary_helper op); [discriminate Hu |].
      unfold assert0. rewrite Hd. emit_steps. reflexivity.
    + intros member v Hm. rewrite member_to_offset_eq, Hm.
      unfold bind, assert0. rewrite Hd. reflexivity.
  - intros e v He. now apply NoAssert_visit_expr.
Qed.

Lemma outside_closed_sets_witness :
  (NDEBUG debug_host = false /\ binary_known (OP_OTHER 0) = false)
  /\ visit_expr debug_host
       (LSLBinaryExpression LST_INTEGER (OP_OTHER 0) true
          (integer_constant 1) (integer_constant 2))
       {| mStr := ""; mTabs := 0 |}
     = inl AssertionFailed.
Proof.
  split; [split; reflexivity |].
  exact (proj1 (proj1 (outside_closed_sets debug_host) eq_refl)
           LST_INTEGER (OP_OTHER 0) true (integer_constant 1)
           (integer_constant 2) {| mStr := ""; mTabs := 0 |} eq_refl).
Defined.

(** C8 as the specification words it does not hold in a build with
    [NDEBUG]: the generator does not stop at the unknown operator, it writes
    the placeholder and the operands. *)
Lemma unknown_operator_not_aborted_without_assertions :
  binary_known (OP_OTHER 0) = false
  /\ emit (visit_expr release_host
             (LSLBinaryExpression LST_INTEGER (OP_OTHER 0) true
                (integer_constant 1) (integer_constant 2))) 0
     = inr "<ERROR>2, 1)".
Proof. split; reflexivity. Qed.

(** ** The driver *)





(** ** Float constants *)

Lemma unhex_hex_digit (n : Z) :
  0 <= n < 16 -> unhex_digit (hex_digit n) = Some n.
Proof.
  intros Hn. rewrite <- (Z2Nat.id n) at 2 by lia. unfold hex_digit.
  assert (Hk : (Z.to_nat n < 16)%nat) by lia.
  generalize dependent (Z.to_nat n). intros k Hk.
  do 16 (destruct k as [| k]; [reflexivity |]). lia.
Qed.

Lemma unhex2_hex_digits (b : Z) :
  0 <= b < 256 ->
  unhex2 (hex_digit (b / 16)) (hex_digit (b mod 16)) = Some b.
Proof.
  intros Hb. unfold unhex2.
  rewrite !unhex_hex_digit
    by (split; [apply Z.div_pos || apply Z.mod_pos_bound; lia
               | apply Z.div_lt_upper_bound || apply Z.mod_pos_bound; lia]).
  f_equal. pose proof (Z.div_mod b 16). lia.
Qed.

Lemma float_byte_range (be : bool) (f : float) (i : Z) :
  0 <= float_byte be f i < 256.
Proof.
  unfold float_byte. change 255 with (Z.ones 8).
  rewrite Z.land_ones by lia. apply Z.mod_pos_bound. reflexivity.
Qed.

Lemma float_bytes_sum (f : float) :
  0 <= f < 2 ^ 32 ->
  float_byte false f 0 + 2 ^ 8 * float_byte false f 1
  + 2 ^ 16 * float_byte false f 2 + 2 ^ 24 * float_byte false f 3 = f.
Proof.
  intros Hf. unfold float_byte. change 255 with (Z.ones 8).
  rewrite !Z.land_ones, !Z.shiftr_div_pow2 by lia.
  change (8 * 0) with 0. change (8 * 1) with 8. change (8 * 2) with 16.
  change (8 * 3) with 24. change (2 ^ 0) with 1. rewrite Z.div_1_r.
  change (2 ^ 8) with 256 in *. change (2 ^ 16) with 65536.
  change (2 ^ 24) with 16777216. change (2 ^ 32) with 4294967296 in Hf.
  Z.div_mod_to_equations. lia.
Qed.

(** The eight digits read back are the pattern. *)
Lemma bin2float_bits_hex_encoding (be : bool) (f : float) :
  0 <= f < 2 ^ 32 -> bin2float_bits be (hex_encoding be f) = Some f.
Proof.
  intros Hf. unfold hex_encoding, hex2. cbn [append bin2float_bits].
  rewrite !unhex2_hex_digits by apply float_byte_range. f_equal.
  pose proof (float_bytes_sum f Hf) as Hs.
  destruct be; [| exact Hs].
  unfold float_byte in *.
  change (3 - 0) with 3. change (3 - 1) with 2. change (3 - 2) with 1.
  change (3 - 3) with 0. lia.
Qed.

Lemma undec_dec (n : Z) : undec (dec n) = Some n.
Proof.
  unfold undec, dec. rewrite NilZero.isi.
  - simpl. now rewrite DecimalZ.of_to.
  - destruct n; simpl; try discriminate.
    intros [= E]. now apply DecimalPos.Unsigned.to_uint_nonnil in E.
  - destruct n; simpl; try discriminate.
    intros [= E]. now apply DecimalPos.Unsigned.to_uint_nonnil in E.
Qed.

Lemma integral_test_true (f : float) :
  double_eq (nearbyint (to_double f)) (to_double f) = true ->
  (exists negative, to_double f = DInf negative)
  \/ (exists q, to_double f = DNum q
                /\ q == inject_Z (round_half_even q)).
Proof.
  destruct (to_double f) as [| negative | q]; simpl; intros Ht.
  - discriminate Ht.
  - left. now exists negative.
  - right. exists q. split; [reflexivity |].
    apply Qeq_bool_iff in Ht. now symmetry.
Qed.

Lemma quot_of_integral (q : Q) (n : Z) :
  q == inject_Z n -> Z.quot (Qnum q) (Zpos (Qden q)) = n.
Proof.
  destruct q as [a b]. unfold Qeq. simpl. intros E.
  rewrite Z.mul_1_r in E. subst a. now apply Z.quot_mul.
Qed.

Lemma to_int64_integral (f : float) (q : Q) (n : Z) :
  to_double f = DNum q -> q == inject_Z n ->
  to_int64 f = if (INT64_MIN <=? n) && (n <=? INT64_MAX) then Some n else None.
Proof.
  intros Hd Hq. unfold to_int64. rewrite Hd.
  now rewrite (quot_of_integral q n Hq).
Qed.

Section FloatConstants.

Variable H : Host.

(** The integral case, when the value is an [int64_t]: the text is the
    decimal integer with [.0] (or [-0.0]), the integer reads back, and it is
    the value of the float. *)
Lemma writeFloat_integral (f : float) (n : Z) (t : nat) :
  double_eq (nearbyint (to_double f)) (to_double f) = true ->
  to_int64 f = Some n ->
  emit (writeFloat H f) t
  = inr (if double_eq (to_double f) (DNum 0) && signbit f
         then "-0.0" else dec n ++ ".0")
  /\ undec (dec n) = Some n
  /\ exists q, to_double f = DNum q /\ q == inject_Z n.
Proof.
  intros Ht Hn. split; [| split].
  - unfold writeFloat. rewrite Ht, Hn.
    destruct (double_eq (to_double f) (DNum 0) && signbit f);
      [reflexivity |].
    emit_steps. reflexivity.
  - apply undec_dec.
  - destruct (integral_test_true f Ht) as [[s Hs] | [q [Hq Hr]]].
    + unfold to_int64 in Hn. rewrite Hs in Hn. discriminate Hn.
    + exists q. split; [exact Hq |].
      rewrite (to_int64_integral f q _ Hq Hr) in Hn.
      destruct (_ && _); [| discriminate Hn]. now injection Hn as <-.
Qed.

(** The other case: the call of [bin2float] on the hint and the eight hex
    digits of the pattern, which read back as the pattern. *)
Lemma writeFloat_bit_pattern (f : float) (t : nat) :
  0 <= f < 2 ^ 32 ->
  double_eq (nearbyint (to_double f)) (to_double f) = false ->
  emit (writeFloat H f) t
  = inr ("bin2float('" ++ to_string H f ++ "', '"
         ++ hex_encoding (big_endian H) f ++ "')")
  /\ bin2float_bits (big_endian H) (hex_encoding (big_endian H) f) = Some f.
Proof.
  intros Hf Ht. split; [| now apply bin2float_bits_hex_encoding].
  unfold writeFloat. rewrite Ht. cbv zeta. emit_steps.
  fold (hex_encoding (big_endian H) f). text_eq.
Qed.

End FloatConstants.

Lemma float_fields (f : float) :
  0 <= f < 2 ^ 32 ->
  f = fraction f + 2 ^ 23 * biased_exponent f
      + 2 ^ 31 * (if signbit f then 1 else 0)
  /\ 0 <= fraction f < 2 ^ 23 /\ 0 <= biased_exponent f < 256.
Proof.
  intros Hf. unfold fraction, biased_exponent, signbit.
  change (2 ^ 23 - 1) with (Z.ones 23). change 255 with (Z.ones 8).
  rewrite !Z.land_ones, Z.shiftr_div_pow2 by lia.
  assert (Hs : (if Z.testbit f 31 then 1 else 0) = f / 2 ^ 31).
  { destruct (Z.testbit f 31) eqn:E.
    - apply Z.testbit_true in E; [| lia].
      assert (f / 2 ^ 31 < 2) by (apply Z.div_lt_upper_bound; lia).
      assert (0 <= f / 2 ^ 31) by (apply Z.div_pos; lia).
      rewrite Z.mod_small in E by lia. now symmetry.
    - apply Z.testbit_false in E; [| lia].
      assert (f / 2 ^ 31 < 2) by (apply Z.div_lt_upper_bound; lia).
      assert (0 <= f / 2 ^ 31) by (apply Z.div_pos; lia).
      rewrite Z.mod_small in E by lia. now symmetry. }
  rewrite Hs.
  change (2 ^ 23) with 8388608. change (2 ^ 8) with 256.
  change (2 ^ 31) with 2147483648. change (2 ^ 32) with 4294967296 in Hf.
  Z.div_mod_to_equations. lia.
Qed.

(** [-0.0] is written for the pattern of negative zero and for no other. *)
Lemma negative_zero_pattern (f : float) :
  0 <= f < 2 ^ 32 ->
  double_eq (to_double f) (DNum 0) && signbit f = true <-> f = 2 ^ 31.
Proof.
  intros Hf. split; [| intros ->; reflexivity].
  intros Hz. apply andb_prop in Hz. destruct Hz as [Hz Hs].
  destruct (float_fields f Hf) as (Hd & Hfr & He).
  rewrite Hs in Hd.
  unfold to_double in Hz.
  destruct (biased_exponent f =? 255) eqn:E255.
  - destruct (fraction f =? 0); discriminate Hz.
  - simpl in Hz. apply Qeq_bool_iff in Hz. unfold Qeq in Hz. simpl in Hz.
    rewrite Z.mul_1_r in Hz. unfold units in Hz. rewrite Hs in Hz.
    destruct (Z.eqb_spec (biased_exponent f) 0) as [E0 | E0].
    + lia.
    + assert (0 < 2 ^ (biased_exponent f - 1)) by (apply Z.pow_pos_nonneg; lia).
      nia.
Qed.

(** The integral case, when no [int64_t] holds the value: the conversion is
    undefined and nothing is known of the text. *)
Lemma writeFloat_integral_out_of_range (H : Host) (f : float) (t : nat) :
  double_eq (nearbyint (to_double f)) (to_double f) = true ->
  to_int64 f = None ->
  emit (writeFloat H f) t = inl UndefinedConversion.
Proof.
  intros Ht Hn. unfold writeFloat. rewrite Ht, Hn.
  destruct (double_eq (to_double f) (DNum 0)) eqn:Hz; [| reflexivity].
  exfalso. destruct (to_double f) as [| s | q] eqn:Hd; try discriminate Hz.
  simpl in Hz. apply Qeq_bool_iff in Hz.
  rewrite (to_int64_integral f q 0 Hd Hz) in Hn. discriminate Hn.
Qed.

(** C1 at the float 2^63.  Its nearest-integer rounding is the float itself,
    so [writeFloat] takes the decimal path; the value is 2^63, one more than
    the largest [int64_t], so the conversion the decimal text is printed from
    is undefined: no text that denotes the float is guaranteed. *)
Theorem float_constant_beyond_int64 (H : Host) (t : nat) :
  double_eq (nearbyint (to_double two_to_63)) (to_double two_to_63) = true
  /\ to_double two_to_63 = DNum (Qmake (2 ^ 63 * 2 ^ 149) (2 ^ 149))
  /\ INT64_MAX = 2 ^ 63 - 1
  /\ to_int64 two_to_63 = None
  /\ emit (writeFloat H two_to_63) t = inl UndefinedConversion.
Proof.
  assert (Ht : double_eq (nearbyint (to_double two_to_63))
                 (to_double two_to_63) = true) by (vm_compute; reflexivity).
  assert (Hn : to_int64 two_to_63 = None) by (vm_compute; reflexivity).
  repeat split; try assumption; try (vm_compute; reflexivity).
Qed.

(** 2.0, negative zero, 0.5 and a NaN on a little-endian host. *)
Example writeFloat_examples :
  emit (writeFloat debug_host 1073741824) 0 = inr "2.0"
  /\ emit (writeFloat debug_host 2147483648) 0 = inr "-0.0"
  /\ emit (writeFloat debug_host 1056964608) 0
     = inr "bin2float('?', '0000003f')"
  /\ emit (writeFloat debug_host 2143289344) 0
     = inr "bin2float('?', '0000c07f')".
Proof. repeat split. Qed.

(** * Further properties of the generator *)

(** ** Indentation *)

Lemma indent_spaces (n : nat) : indent n = spaces (4 * n).
Proof.
  induction n as [| n IH]; [reflexivity |].
  replace (4 * S n)%nat with (S (S (S (S (4 * n))))) by lia.
  simpl. now rewrite IH.
Qed.

Lemma spaces_length (n : nat) : String.length (spaces n) = n.
Proof. induction n as [| n IH]; simpl; [reflexivity | now rewrite IH]. Qed.

(** X1.  [doTabs] appends four spaces for each level of the current depth,
    and nothing else; the depth is left as it was. *)
Theorem doTabs_four_spaces_per_level (v : PythonVisitor) :
  doTabs v
  = inr (tt, {| mStr := mStr v ++ spaces (4 * mTabs v); mTabs := mTabs v |})
  /\ String.length (spaces (4 * mTabs v)) = (4 * mTabs v)%nat.
Proof.
  split; [| apply spaces_length].
  rewrite (Writer_doTabs v).
  pose proof (emit_doTabs (mTabs v)) as He. unfold emit in He.
  destruct (doTabs {| mStr := ""; mTabs := mTabs v |}) as [f | [[] v']];
    [discriminate He |].
  injection He as ->. now rewrite indent_spaces.
Qed.

(** X2.  Whatever the scope of a [ScopedTabSetter] does to the depth, the
    scope runs at the depth given to the setter and the depth the setter
    found is back when the scope is left; the text is what the scope
    wrote. *)
Theorem ScopedTabSetter_restores_depth (tabs : nat) (scope : M unit)
    (v v' : PythonVisitor) :
  ScopedTabSetter tabs scope v = inr (tt, v') ->
  mTabs v' = mTabs v
  /\ exists w, scope {| mStr := mStr v; mTabs := tabs |} = inr (tt, w)
               /\ mStr v' = mStr w.
Proof.
  unfold ScopedTabSetter, bind, getTabs, setTabs. simpl.
  destruct (scope {| mStr := mStr v; mTabs := tabs |}) as [f | [[] w]];
    [discriminate |].
  intros [= <-]. split; [reflexivity |]. now exists w.
Qed.

Lemma ScopedTabSetter_restores_depth_witness :
  ScopedTabSetter 3 (setTabs 7 ;; doTabs) {| mStr := "x"; mTabs := 1 |}
  = inr (tt, {| mStr := "x" ++ spaces 28; mTabs := 1 |})
  /\ mTabs {| mStr := "x" ++ spaces 28; mTabs := 1 |} = 1%nat.
Proof.
  split; [reflexivity |].
  exact (proj1 (ScopedTabSetter_restores_depth 3 (setTabs 7 ;; doTabs)
                  {| mStr := "x"; mTabs := 1 |}
                  {| mStr := "x" ++ spaces 28; mTabs := 1 |} eq_refl)).
Defined.

(** ** Constants *)

(** X3.  An integer constant is written as its decimal digits, which read
    back as the same integer, negative values included. *)
Theorem integer_constant_round_trip (H : Host) (ty : LSLIType) (value : Z)
    (t : nat) :
  exists text,
    emit (visit_expr H (LSLConstantExpression ty (LSLIntegerConstant value))) t
    = inr text
    /\ undec text = Some value.
Proof. exists (dec value). split; [reflexivity | apply undec_dec]. Qed.

(** X4.  A key constant is written as the text of the string constant of the
    same value, wrapped in [Key(] and [)]. *)
Theorem key_constant_wraps_string (H : Host) (value : string) (t : nat) :
  exists quoted,
    emit (visit_constant H (LSLStringConstant value)) t = inr quoted
    /\ emit (visit_constant H (LSLKeyConstant value)) t
       = inr ("Key(" ++ quoted ++ ")").
Proof.
  exists (dquote ++ escape_string H value ++ dquote). split.
  - cbn [visit_constant]. emit_steps. text_eq.
  - cbn [visit_constant]. emit_steps. text_eq.
Qed.

(** ** Children and separators *)

Lemma cat_sep_texts {A : Type} (f : A -> Fault + string) (separator : string)
    (l : list A) (texts : list string) :
  Forall2 (fun a text => f a = inr text) l texts ->
  cat_sep f separator l = inr (String.concat separator texts).
Proof.
  induction 1 as [| a text l texts Ha Hl IH]; [reflexivity |].
  cbn [cat_sep]. rewrite Ha, IH.
  destruct Hl as [| b text' l texts Hb Hl]; cbn [String.concat cat];
    [now rewrite append_nil_r | reflexivity].
Qed.

(** X5.  [writeChildrenSep] writes the texts of the children in order with
    the separator between two neighbours only: nothing for no child, no
    separator after the last. *)
Theorem writeChildrenSep_joins (H : Host) (separator : string)
    (children : list LSLExpression) (texts : list string) (t : nat) :
  Forall2 (fun child text => emit (visit_expr H child) t = inr text)
    children texts ->
  emit (writeChildrenSep (visit_expr H) separator children) t
  = inr (String.concat separator texts).
Proof.
  intros Hc. rewrite emit_writeChildrenSep by (intros; writer).
  now apply cat_sep_texts.
Qed.

Lemma writeChildrenSep_joins_witness :
  Forall2 (fun child text => emit (visit_expr debug_host child) 0 = inr text)
    [integer_constant 1; integer_constant 2; integer_constant 3]
    ["1"; "2"; "3"]
  /\ emit (writeChildrenSep (visit_expr debug_host) ", "
             [integer_constant 1; integer_constant 2; integer_constant 3]) 0
     = inr "1, 2, 3".
Proof.
  assert (Hc : Forall2
                 (fun child text =>
                    emit (visit_expr debug_host child) 0 = inr text)
                 [integer_constant 1; integer_constant 2; integer_constant 3]
                 ["1"; "2"; "3"])
    by (repeat constructor).
  split; [exact Hc |].
  exact (writeChildrenSep_joins debug_host ", " _ _ 0%nat Hc).
Defined.

(** X6.  A function call is the name of the callee, in the namespace of the
    runtime library for a builtin and of the instance otherwise, and the
    texts of the arguments from left to right between parentheses, separated
    by commas. *)
Theorem function_call_text (H : Host) (ty : LSLIType) (sym : LSLSymbol)
    (arguments : list LSLExpression) (texts : list string) (t : nat) :
  Forall2 (fun arg text => emit (visit_expr H arg) t = inr text)
    arguments texts ->
  emit (visit_expr H (LSLFunctionExpression ty sym arguments)) t
  = inr ((if is_builtin (sym_subtype sym) then "lslfuncs." else "self.")
         ++ sym_name sym ++ "(" ++ String.concat ", " texts ++ ")").
Proof.
  intros Hc. cbn [visit_expr]. emit_steps.
  rewrite (emit_writeChildrenSep (visit_expr H) ", " arguments t)
    by (intros; writer).
  rewrite (cat_sep_texts _ _ _ _ Hc).
  destruct (is_builtin (sym_subtype sym)); text_eq.
Qed.

Lemma function_call_text_witness :
  Forall2 (fun arg text => emit (visit_expr debug_host arg) 0 = inr text)
    [integer_constant 0; integer_constant 7] ["0"; "7"]
  /\ emit (visit_expr debug_host
             (LSLFunctionExpression LST_NULL
                {| sym_name := "llSetTimerEvent"; sym_itype := LST_NULL;
                   sym_subtype := SYM_BUILTIN |}
                [integer_constant 0; integer_constant 7])) 0
     = inr "lslfuncs.llSetTimerEvent(0, 7)".
Proof.
  assert (Hc : Forall2
                 (fun arg text => emit (visit_expr debug_host arg) 0 = inr text)
                 [integer_constant 0; integer_constant 7] ["0"; "7"])
    by (repeat constructor).
  split; [exact Hc |].
  exact (function_call_text debug_host LST_NULL _ _ _ 0%nat Hc).
Defined.

(** ** Assignments to a whole variable *)

(** X7.  A plain assignment to a variable without member is the statement
    [name = value] ([self.name = value] for a global) when its value is not
    used; when it is used, a global goes through the [assign] helper on the
    attribute table of the instance and only a local uses the inline
    assignment expression.  A target that is no lvalue is a fault. *)
Theorem variable_assignment_forms (H : Host) (ty lhs_ty : LSLIType)
    (result_needed : bool) (lvalue : LSLLValue) (rhs : LSLExpression)
    (t : nat) :
  lv_member lvalue = None ->
  let sym := lv_symbol lvalue in
  emit (visit_expr H
          (LSLBinaryExpression ty OP_ASSIGN result_needed
             (LSLLValueExpression lhs_ty lvalue) rhs)) t
  = if result_needed
    then inr (rebind_open sym) +++ emit (visit_expr H rhs) t +++ inr ")"
    else inr (self_prefix sym ++ sym_name sym ++ " = ")
         +++ emit (visit_expr H rhs) t.
Proof.
  intros Hm sym. subst sym.
  cbn [visit_expr as_lvalue]. rewrite emit_bind_ret, Hm.
  unfold self_prefix, rebind_open.
  destruct result_needed; cbn [negb]; emit_steps;
    destruct (is_global (sym_subtype (lv_symbol lvalue))),
      (emit (visit_expr H rhs) t);
    text_eq.
Qed.

Lemma variable_assignment_forms_witness :
  lv_member (lvalue_of global_v None) = None
  /\ emit (visit_expr debug_host
             (LSLBinaryExpression LST_INTEGER OP_ASSIGN true
                (LSLLValueExpression LST_INTEGER (lvalue_of global_v None))
                (integer_constant 2))) 0
     = inr ("assign(self.__dict__, " ++ dquote ++ "v" ++ dquote ++ ", 2)").
Proof.
  split; [reflexivity |].
  exact (variable_assignment_forms debug_host LST_INTEGER LST_INTEGER true
           (lvalue_of global_v None) (integer_constant 2) 0%nat eq_refl).
Defined.

(** X8.  The compound multiplication of an integer variable by a float
    rebinds the variable to the product, computed by [rmul] on the right
    operand and then the variable, cast back to [int]; the rebinding is the
    [assign] helper for a global and the inline assignment for a local, and
    the expression is closed by the parenthesis that the rebinding opened. *)
Theorem multiply_assign_text (H : Host) (ty lhs_ty : LSLIType)
    (result_needed : bool) (lvalue : LSLLValue) (rhs : LSLExpression)
    (t : nat) :
  let sym := lv_symbol lvalue in
  emit (visit_expr H
          (LSLBinaryExpression ty OP_MUL_ASSIGN result_needed
             (LSLLValueExpression lhs_ty lvalue) rhs)) t
  = inr (rebind_open sym ++ "typecast(rmul(")
    +++ emit (visit_expr H rhs) t +++ inr ", "
    +++ emit (visit_lvalue H lvalue) t +++ inr "), int))".
Proof.
  intros sym. subst sym.
  cbn [visit_expr getSymbol deref]. rewrite emit_bind_ret.
  unfold rebind_open. emit_steps.
  destruct (is_global (sym_subtype (lv_symbol lvalue))),
    (emit (visit_expr H rhs) t), (emit (visit_lvalue H lvalue) t);
    text_eq.
Qed.

(** ** What every visit does to the state *)

Lemma Writer_explicit {A : Type} (m : M A) (v v' : PythonVisitor) (a : A) :
  Writer m -> m v = inr (a, v') ->
  mTabs v' = mTabs v
  /\ exists text, emit m (mTabs v) = inr text /\ mStr v' = mStr v ++ text.
Proof.
  intros Hm Hv. rewrite (Hm v) in Hv. unfold emit.
  destruct (m {| mStr := ""; mTabs := mTabs v |}) as [f | [a' w]];
    [discriminate Hv |].
  injection Hv as <- <-. split; [reflexivity |]. now exists (mStr w).
Qed.

(** X9.  A visit of a script, from any state of the visitor, leaves what
    was already in the buffer untouched and appends to it; what it appends
    does not depend on what the buffer held, and the indentation depth is
    the same after the visit as before. *)
Theorem visit_script_appends_only (H : Host) (script : LSLScript)
    (v v' : PythonVisitor) :
  visit_script H script v = inr (tt, v') ->
  mTabs v' = mTabs v
  /\ exists text,
       emit (visit_script H script) (mTabs v) = inr text
       /\ mStr v' = mStr v ++ text.
Proof. apply Writer_explicit, Writer_visit_script. Qed.

Lemma visit_script_appends_only_witness :
  visit_script debug_host minimal_script {| mStr := "# head "; mTabs := 0 |}
  = inr (tt, {| mStr := "# head " ++ "from lummao import *" ++ nl ++ nl ++ nl
                        ++ "class Script(BaseLSLScript):" ++ nl ++ nl
                        ++ "    def __init__(self):" ++ nl
                        ++ "        super().__init__()" ++ nl ++ nl
                        ++ "    @with_goto" ++ nl
                        ++ "    def edefaultstate_entry(self) -> None:" ++ nl
                        ++ "        pass" ++ nl ++ nl;
                mTabs := 0 |})
  /\ mTabs {| mStr := "# head " ++ "from lummao import *" ++ nl ++ nl ++ nl
                      ++ "class Script(BaseLSLScript):" ++ nl ++ nl
                      ++ "    def __init__(self):" ++ nl
                      ++ "        super().__init__()" ++ nl ++ nl
                      ++ "    @with_goto" ++ nl
                      ++ "    def edefaultstate_entry(self) -> None:" ++ nl
                      ++ "        pass" ++ nl ++ nl;
              mTabs := 0 |} = 0%nat.
Proof.
  assert (Hv : visit_script debug_host minimal_script
                 {| mStr := "# head "; mTabs := 0 |}
               = inr (tt, {| mStr := "# head " ++ "from lummao import *"
                                     ++ nl ++ nl ++ nl
                                     ++ "class Script(BaseLSLScript):" ++ nl
                                     ++ nl
                                     ++ "    def __init__(self):" ++ nl
                                     ++ "        super().__init__()" ++ nl
                                     ++ nl
                                     ++ "    @with_goto" ++ nl
                                     ++ "    def edefaultstate_entry(self) -> None:"
                                     ++ nl
                                     ++ "        pass" ++ nl ++ nl;
                             mTabs := 0 |}))
    by (vm_compute; reflexivity).
  split; [exact Hv |].
  exact (proj1 (visit_script_appends_only debug_host minimal_script _ _ Hv)).
Defined.

(** ** Expressions and the depth *)

Lemma DepthFree_emit {A : Type} (m : M A) (t t' : nat) :
  DepthFree m -> emit m t = emit m t'.
Proof.
  intros Hm. specialize (Hm t t'). unfold emit.
  destruct (m {| mStr := ""; mTabs := t |}) as [f | [a v]],
    (m {| mStr := ""; mTabs := t' |}) as [f' | [a' v']];
    try contradiction; [now subst | now destruct Hm as [_ ->]].
Qed.

Lemma DepthFree_ret {A : Type} (a : A) : DepthFree (ret a).
Proof. intros t t'. simpl. auto. Qed.

Lemma DepthFree_fail {A : Type} (f : Fault) : DepthFree (@fail A f).
Proof. intros t t'. reflexivity. Qed.

Lemma DepthFree_write (s : string) : DepthFree (write s).
Proof. intros t t'. simpl. auto. Qed.

Lemma DepthFree_bind {A B : Type} (m : M A) (k : A -> M B) :
  Writer m -> (forall a, Writer (k a)) ->
  DepthFree m -> (forall a, DepthFree (k a)) -> DepthFree (bind m k).
Proof.
  intros Wm Wk Hm Hk t t'. specialize (Hm t t'). unfold bind.
  destruct (m {| mStr := ""; mTabs := t |}) as [f | [a v]] eqn:E,
    (m {| mStr := ""; mTabs := t' |}) as [f' | [a' v']] eqn:E';
    try contradiction; [exact Hm |].
  destruct Hm as [<- Hs].
  rewrite (Wk a v), (Wk a v'), (Writer_tabs _ _ _ _ Wm E),
    (Writer_tabs _ _ _ _ Wm E'), Hs.
  specialize (Hk a t t').
  destruct (k a {| mStr := ""; mTabs := t |}) as [g | [b w]],
    (k a {| mStr := ""; mTabs := t' |}) as [g' | [b' w']];
    try contradiction; [exact Hk |].
  destruct Hk as [-> ->]. simpl. auto.
Qed.

Lemma DepthFree_when (c : bool) (body : M unit) :
  DepthFree body -> DepthFree (when c body).
Proof. destruct c; [auto | intros _; apply DepthFree_ret]. Qed.

Lemma DepthFree_deref {A : Type} (p : option A) : DepthFree (deref p).
Proof. destruct p; [apply DepthFree_ret | apply DepthFree_fail]. Qed.

Lemma DepthFree_as_lvalue (e : LSLExpression) : DepthFree (as_lvalue e).
Proof. destruct e; simpl; solve [apply DepthFree_ret | apply DepthFree_fail]. Qed.

Lemma DepthFree_writeChildrenSep {A : Type} (visit : A -> M unit)
    (separator : string) (l : list A) :
  (forall a, Writer (visit a)) ->
  list_all A (fun a => DepthFree (visit a)) l ->
  DepthFree (writeChildrenSep visit separator l).
Proof.
  intros Hw. induction 1 as [| a Ha l Hl IH]; simpl; [apply DepthFree_ret |].
  apply DepthFree_bind; [apply Hw | intros; writer | assumption | intros _].
  apply DepthFree_bind;
    [writer | intros _; apply Writer_writeChildrenSep, list_all_of_forall, Hw
    | apply DepthFree_when, DepthFree_write | intros _; exact IH].
Qed.

Create HintDb depthfree discriminated.

#[export] Hint Resolve DepthFree_ret DepthFree_fail DepthFree_write
  DepthFree_when DepthFree_deref DepthFree_as_lvalue : depthfree.

(** Decomposes a goal [DepthFree m] along the shape of [m]. *)
Ltac depthfree :=
  repeat first
    [ assumption
    | solve [auto with depthfree]
    | apply DepthFree_writeChildrenSep; [intros; writer |]
    | apply DepthFree_bind; [writer | intros; writer | | intros ?]
    | match goal with
      | |- DepthFree (if ?c then _ else _) => destruct c
      | |- DepthFree (match ?x with _ => _ end) => destruct x
      | |- DepthFree (let _ := _ in _) => cbv zeta
      end ].

Section Depth.

Variable H : Host.

Lemma DepthFree_assert0 : DepthFree (assert0 H).
Proof. unfold assert0. depthfree. Qed.

Lemma DepthFree_writeFloat (f : float) : DepthFree (writeFloat H f).
Proof. unfold writeFloat. depthfree. Qed.

Lemma DepthFree_visit_constant (c : LSLConstant) :
  DepthFree (visit_constant H c).
Proof.
  pose proof DepthFree_writeFloat. induction c; simpl; depthfree.
Qed.

Lemma DepthFree_member_to_offset (member : string) :
  DepthFree (member_to_offset H member).
Proof.
  pose proof DepthFree_assert0. pose proof (Writer_assert0 H).
  rewrite member_to_offset_eq. depthfree.
Qed.

Lemma DepthFree_visit_lvalue (lvalue : LSLLValue) :
  DepthFree (visit_lvalue H lvalue).
Proof.
  pose proof DepthFree_member_to_offset. unfold visit_lvalue. depthfree.
Qed.

Lemma DepthFree_constructMutatedMember sym member (visit_rhs : M unit) :
  Writer visit_rhs -> DepthFree visit_rhs ->
  DepthFree (constructMutatedMember H sym member visit_rhs).
Proof.
  pose proof DepthFree_member_to_offset. intros Hw Hr.
  unfold constructMutatedMember. depthfree.
Qed.

Lemma DepthFree_visit_expr (e : LSLExpression) : DepthFree (visit_expr H e).
Proof.
  pose proof DepthFree_assert0. pose proof (Writer_assert0 H).
  pose proof DepthFree_member_to_offset.
  pose proof DepthFree_visit_constant. pose proof DepthFree_visit_lvalue.
  induction e; simpl;
    try solve [depthfree; apply DepthFree_constructMutatedMember;
               solve [assumption | writer]].
Qed.

End Depth.

(** X10.  The text of an expression does not depend on the indentation depth
    at which it is visited: an expression never writes indentation. *)
Theorem expression_text_ignores_depth (H : Host) (e : LSLExpression)
    (t t' : nat) :
  emit (visit_expr H e) t = emit (visit_expr H e) t'.
Proof. apply DepthFree_emit, DepthFree_visit_expr. Qed.

(** ** Statements are whole lines *)

Lemma cat_inv (a b : Fault + string) (text : string) :
  a +++ b = inr text ->
  exists x y, a = inr x /\ b = inr y /\ text = x ++ y.
Proof.
  destruct a as [f | x]; [discriminate |].
  destruct b as [f | y]; [discriminate |].
  intros [= <-]. now exists x, y.
Qed.

Lemma starts_with_app (p x y : string) :
  starts_with p x -> starts_with p (x ++ y).
Proof. intros [r ->]. exists (r ++ y). now rewrite append_assoc. Qed.

Lemma ends_with_app (s x y : string) :
  ends_with s y -> ends_with s (x ++ y).
Proof. intros [i ->]. exists (x ++ i). now rewrite append_assoc. Qed.

Lemma ends_with_cons (s : string) (c : ascii) (y : string) :
  ends_with s y -> ends_with s (String c y).
Proof. intros [i ->]. now exists (String c i). Qed.

Lemma starts_with_refl (p : string) : starts_with p p.
Proof. exists "". now rewrite append_nil_r. Qed.

Lemma ends_with_refl (s : string) : ends_with s s.
Proof. now exists "". Qed.

(** The texts of a run of whole lines: nothing, or whole lines. *)
Lemma cat_all_lines {A : Type} (f : A -> Fault + string) (p s : string)
    (l : list A) (text : string) :
  list_all A (fun a => forall x, f a = inr x ->
                                 starts_with p x /\ ends_with s x) l ->
  cat_all f l = inr text ->
  text = "" \/ (starts_with p text /\ ends_with s text).
Proof.
  intros Hl. revert text.
  induction Hl as [| a Ha l Hl IH]; intros text Ht.
  - left. now injection Ht as <-.
  - right. cbn [cat_all] in Ht. apply cat_inv in Ht.
    destruct Ht as (x & y & Hx & Hy & ->).
    destruct (Ha x Hx) as [Hp Hs]. split; [now apply starts_with_app |].
    destruct (IH y Hy) as [-> | [_ Hs']];
      [now rewrite append_nil_r | now apply ends_with_app].
Qed.

Lemma cat_all_lines_nonempty {A : Type} (f : A -> Fault + string)
    (p s : string) (a : A) (l : list A) (text : string) :
  list_all A (fun a => forall x, f a = inr x ->
                                 starts_with p x /\ ends_with s x) (a :: l) ->
  cat_all f (a :: l) = inr text ->
  starts_with p text /\ ends_with s text.
Proof.
  intros Hl Ht. inversion Hl as [| a' Ha l' Hl']. subst.
  cbn [cat_all] in Ht. apply cat_inv in Ht.
  destruct Ht as (x & y & Hx & Hy & ->).
  destruct (Ha x Hx) as [Hp Hs]. split; [now apply starts_with_app |].
  destruct (cat_all_lines f p s l y Hl' Hy) as [-> | [_ Hs']];
    [now rewrite append_nil_r | now apply ends_with_app].
Qed.

(** Splits a sequence of results that gave a text into its parts. *)
Ltac peel Ht :=
  repeat match type of Ht with
         | (_ +++ _) = inr _ =>
             let x := fresh "x" in
             let y := fresh "y" in
             let Hx := fresh "Hx" in
             apply cat_inv in Ht; destruct Ht as (x & y & Hx & Ht & ->)
         end;
  repeat match goal with
         | Hx : inr _ = inr _ |- _ => injection Hx as <-
         end.

(** The text at hand begins with its first part, ends with its last. *)
Ltac starts_here :=
  repeat (rewrite <- ?append_assoc);
  repeat apply starts_with_app; apply starts_with_refl.

Ltac ends_here :=
  repeat first
    [ apply ends_with_refl
    | apply ends_with_app
    | apply ends_with_cons ].

Lemma clause_line (H : Host) (clause : LSLExpression) (t : nat) (x : string) :
  inr (indent t) +++ emit (visit_expr H clause) t +++ inr nl = inr x ->
  starts_with (indent t) x /\ ends_with nl x.
Proof.
  intros Ht. peel Ht. split.
  - apply starts_with_app, starts_with_refl.
  - do 2 apply ends_with_app. apply ends_with_refl.
Qed.

(** X11.  The text of a statement at depth [t] is made of whole lines: it
    begins with the indentation of depth [t] and ends with a line feed.  In
    particular it is never empty, so no block of the emitted program is
    left without a statement. *)
Theorem statement_text_whole_lines (H : Host) (s : LSLStatement) (t : nat)
    (text : string) :
  emit (visit_stmt H s) t = inr text ->
  starts_with (indent t) text /\ ends_with nl text /\ text <> "".
Proof.
  intros Hemit.
  enough (Hl : starts_with (indent t) text /\ ends_with nl text).
  { destruct Hl as [Hp [init ->]]. repeat split; auto.
    - now exists init.
    - destruct init; discriminate. }
  revert t text Hemit.
  induction s; intros t text Ht; cbn [visit_stmt] in Ht.
  - (* no-op *)
    revert Ht. emit_steps. intros Ht. peel Ht. split; [starts_here | ends_here].
  - (* compound *)
    destruct children as [| child rest].
    + revert Ht. emit_steps. intros Ht. peel Ht.
      split; [starts_here | ends_here].
    + rewrite emit_forEach in Ht by (intros; writer).
      apply (cat_all_lines_nonempty
               (fun a => emit (visit_stmt H a) t) (indent t) nl
               child rest text); [| exact Ht].
      match goal with
      | Hl : list_all _ _ _ |- _ =>
          clear Ht; induction Hl; constructor; auto
      end.
  - (* expression statement *)
    revert Ht. emit_steps. intros Ht. peel Ht.
    split; [starts_here | ends_here].
  - (* declaration *)
    revert Ht. emit_steps. intros Ht. peel Ht.
    split; [starts_here | ends_here].
  - (* if *)
    revert Ht. emit_steps. intros Ht.
    destruct false_branch as [false_branch |].
    + revert Ht. emit_steps. intros Ht. peel Ht.
      split; [starts_here |].
      repeat apply ends_with_app.
      match goal with
      | Hb : option_all _ _ (Some _),
        Hx : emit (visit_stmt _ false_branch) ?d = inr ?x |- _ =>
          inversion Hb as [b IHb |]; subst; exact (proj2 (IHb d x Hx))
      end.
    + revert Ht. emit_steps. intros Ht. peel Ht.
      split; [starts_here |].
      rewrite append_nil_r. repeat apply ends_with_app.
      match goal with
      | Hx : emit (visit_stmt _ _) ?d = inr ?x |- ends_with _ ?x =>
          exact (proj2 (IHs d x Hx))
      end.
  - (* for *)
    revert Ht. emit_steps. rewrite !emit_clauses. intros Ht. peel Ht.
    match goal with
    | Hi : cat_all _ init_exprs = inr ?x, Hk : cat_all _ incr_exprs = inr ?y,
      Hb : emit (visit_stmt _ _) ?d = inr ?b |- _ =>
        pose proof (cat_all_lines _ (indent t) nl init_exprs x
                      (list_all_of_forall _ _ (fun clause =>
                         clause_line H clause t)) Hi) as Hinit;
        pose proof (cat_all_lines _ (indent d) nl incr_exprs y
                      (list_all_of_forall _ _ (fun clause =>
                         clause_line H clause d)) Hk) as Hincr;
        pose proof (proj2 (IHs d b Hb)) as Hbody
    end.
    split.
    + destruct Hinit as [-> | [Hp _]];
        [cbn [append]; starts_here | now apply starts_with_app].
    + destruct Hincr as [-> | [_ Hs]].
      * rewrite append_nil_r. repeat apply ends_with_app. exact Hbody.
      * repeat apply ends_with_app. exact Hs.
  - (* while *)
    revert Ht. emit_steps. intros Ht. peel Ht.
    split; [starts_here |].
    repeat apply ends_with_app.
    match goal with
    | Hx : emit (visit_stmt _ _) ?d = inr ?x |- ends_with _ ?x =>
        exact (proj2 (IHs d x Hx))
    end.
  - (* do *)
    revert Ht. emit_steps. intros Ht. peel Ht.
    split; [starts_here | ends_here].
  - revert Ht. emit_steps. intros Ht. peel Ht.
    split; [starts_here | ends_here].
  - revert Ht. emit_steps. intros Ht. peel Ht.
    split; [starts_here | ends_here].
  - destruct expr; revert Ht; emit_steps; intros Ht; peel Ht;
      (split; [starts_here | ends_here]).
  - revert Ht. emit_steps. intros Ht. peel Ht.
    split; [starts_here | ends_here].
Qed.

Lemma statement_text_whole_lines_witness :
  emit (visit_stmt debug_host
          (LSLWhileStatement (integer_constant 1) (LSLCompoundStatement []))) 1
  = inr ("    while 1:" ++ nl ++ "        pass" ++ nl)
  /\ starts_with (indent 1) ("    while 1:" ++ nl ++ "        pass" ++ nl).
Proof.
  split; [reflexivity |].
  exact (proj1 (statement_text_whole_lines debug_host
                  (LSLWhileStatement (integer_constant 1)
                     (LSLCompoundStatement []))
                  1%nat _ eq_refl)).
Defined.

(** ** Generation of a well-formed tree *)

Lemma NoFault_ret {A : Type} (a : A) : NoFault (ret a).
Proof. intros v. now exists a, v. Qed.

Lemma NoFault_write (s : string) : NoFault (write s).
Proof. intros v. eexists; eexists; reflexivity. Qed.

Lemma NoFault_getTabs : NoFault getTabs.
Proof. intros v. eexists; eexists; reflexivity. Qed.

Lemma NoFault_setTabs (tabs : nat) : NoFault (setTabs tabs).
Proof. intros v. eexists; eexists; reflexivity. Qed.

Lemma NoFault_bind {A B : Type} (m : M A) (k : A -> M B) :
  NoFault m -> (forall a, NoFault (k a)) -> NoFault (bind m k).
Proof.
  intros Hm Hk v. unfold bind.
  destruct (Hm v) as (a & v' & ->). apply Hk.
Qed.

Lemma NoFault_bind_ret {A B : Type} (a : A) (k : A -> M B) :
  NoFault (k a) -> NoFault (bind (ret a) k).
Proof. intros Hk v. exact (Hk v). Qed.

Lemma NoFault_when (c : bool) (body : M unit) :
  NoFault body -> NoFault (when c body).
Proof. destruct c; [auto | intros _; apply NoFault_ret]. Qed.

Lemma NoFault_repeatM (n : nat) (body : M unit) :
  NoFault body -> NoFault (repeatM n body).
Proof.
  intros Hb. induction n as [| n IH]; simpl;
    [apply NoFault_ret | apply NoFault_bind; auto].
Qed.

Lemma NoFault_doTabs : NoFault doTabs.
Proof.
  apply NoFault_bind; [apply NoFault_getTabs |].
  intros n. apply NoFault_repeatM, NoFault_write.
Qed.

Lemma NoFault_ScopedTabSetter (tabs : nat) (scope : M unit) :
  NoFault scope -> NoFault (ScopedTabSetter tabs scope).
Proof.
  intros Hs. unfold ScopedTabSetter.
  apply NoFault_bind; [apply NoFault_getTabs | intros old].
  apply NoFault_bind; [apply NoFault_setTabs | intros _].
  apply NoFault_bind; [exact Hs | intros _; apply NoFault_setTabs].
Qed.

Lemma NoFault_forEach {A : Type} (body : A -> M unit) (l : list A) :
  list_all A (fun a => NoFault (body a)) l -> NoFault (forEach body l).
Proof.
  induction 1; simpl; [apply NoFault_ret | apply NoFault_bind; auto].
Qed.

Lemma NoFault_writeChildrenSep {A : Type} (visit : A -> M unit)
    (separator : string) (l : list A) :
  list_all A (fun a => NoFault (visit a)) l ->
  NoFault (writeChildrenSep visit separator l).
Proof.
  induction 1; simpl; [apply NoFault_ret |].
  apply NoFault_bind; [assumption | intros _].
  apply NoFault_bind; [apply NoFault_when, NoFault_write | auto].
Qed.

Lemma list_all_of_forallb {A : Type} (p : A -> bool) (P : A -> Prop)
    (l : list A) :
  list_all A (fun a => p a = true -> P a) l ->
  forallb p l = true -> list_all A P l.
Proof.
  induction 1 as [| a Ha l Hl IH]; simpl; intros Hf; constructor;
    apply andb_prop in Hf; destruct Hf; auto.
Qed.

Lemma list_all_of_forallb_plain {A : Type} (p : A -> bool) (P : A -> Prop)
    (l : list A) :
  (forall a, p a = true -> P a) -> forallb p l = true -> list_all A P l.
Proof.
  intros HP. induction l as [| a l IH]; simpl; intros Hf; constructor;
    apply andb_prop in Hf; destruct Hf; auto.
Qed.

Create HintDb nofault discriminated.

#[export] Hint Resolve NoFault_ret NoFault_write NoFault_getTabs
  NoFault_setTabs NoFault_when NoFault_doTabs NoFault_ScopedTabSetter
  : nofault.

(** Decomposes a goal [NoFault m] along the shape of [m]. *)
Ltac nofault :=
  repeat first
    [ assumption
    | solve [auto with nofault]
    | apply NoFault_ScopedTabSetter
    | apply NoFault_writeChildrenSep
    | apply NoFault_forEach
    | apply NoFault_bind; [| intros ?]
    | match goal with
      | |- NoFault (if ?c then _ else _) => destruct c
      | |- NoFault (let _ := _ in _) => cbv zeta
      end ].

(** Splits the conjunctions of a well-formedness hypothesis. *)
Ltac split_wf :=
  repeat match goal with
         | Hc : _ && _ = true |- _ => apply andb_prop in Hc; destruct Hc
         | Hl : list_all _ (fun a => ?p a = true -> _) ?l,
           Hf : forallb ?p ?l = true |- _ =>
             apply (list_all_of_forallb _ _ _ Hl) in Hf; clear Hl
         | IH : ?c = true -> _, Hc : ?c = true |- _ => specialize (IH Hc)
         end.

Section WellFormed.

Variable H : Host.

Lemma NoFault_writeFloat (f : float) :
  float_printable f = true -> NoFault (writeFloat H f).
Proof.
  unfold float_printable, writeFloat. intros Hp.
  destruct (double_eq (nearbyint (to_double f)) (to_double f));
    [| nofault].
  destruct (double_eq (to_double f) (DNum 0) && signbit f); [nofault |].
  destruct (to_int64 f); [nofault | discriminate Hp].
Qed.

Lemma NoFault_visit_constant (c : LSLConstant) :
  constant_printable c = true -> NoFault (visit_constant H c).
Proof.
  induction c; cbn [constant_printable visit_constant]; intros Hc; split_wf;
    repeat match goal with
           | Hf : float_printable _ = true |- _ =>
               apply NoFault_writeFloat in Hf
           end;
    nofault.
Qed.

Lemma NoFault_default (ty : LSLIType) (default : LSLConstant) :
  getDefaultValue ty = Some default -> NoFault (visit_constant H default).
Proof.
  intros Hd. apply NoFault_visit_constant.
  destruct ty; try discriminate Hd; injection Hd as <-; reflexivity.
Qed.

Lemma NoFault_unit (ty : LSLIType) (one : LSLConstant) :
  getOneValue ty = Some one -> NoFault (visit_constant H one).
Proof.
  intros Hd. apply NoFault_visit_constant.
  destruct ty; try discriminate Hd; injection Hd as <-; reflexivity.
Qed.

Lemma NoFault_member_to_offset (member : string) :
  is_some (coordinate_offset member) = true ->
  NoFault (member_to_offset H member).
Proof.
  intros Hm. rewrite member_to_offset_eq.
  destruct (coordinate_offset member); [nofault | discriminate Hm].
Qed.

Lemma NoFault_visit_lvalue (lvalue : LSLLValue) :
  member_known (lv_member lvalue) = true -> NoFault (visit_lvalue H lvalue).
Proof.
  intros Hm. unfold visit_lvalue, member_known in *.
  destruct (lv_member lvalue) as [member |]; [| nofault].
  pose proof (NoFault_member_to_offset _ Hm). nofault.
Qed.

Lemma NoFault_constructMutatedMember sym member (visit_rhs : M unit) :
  is_some (coordinate_offset (id_name member)) = true ->
  NoFault visit_rhs ->
  NoFault (constructMutatedMember H sym member visit_rhs).
Proof.
  intros Hm Hr. pose proof (NoFault_member_to_offset _ Hm).
  unfold constructMutatedMember. nofault.
Qed.

Lemma NoFault_visit_expr (e : LSLExpression) :
  well_formed e = true -> NoFault (visit_expr H e).
Proof.
  induction e; cbn [well_formed]; intros Hc; split_wf; cbn [visit_expr];
    try solve [nofault].
  - now apply NoFault_visit_constant.
  - destruct (getIType e), ty; nofault.
  - now apply NoFault_visit_lvalue.
  - (* binary *)
    destruct op; try discriminate; cbn [binary_helper]; try solve [nofault].
    + (* assignment *)
      destruct e1; try discriminate. cbn [as_lvalue].
      apply NoFault_bind_ret.
      cbn [well_formed] in *. unfold member_known in *.
      destruct (lv_member lvalue) as [member |]; [| nofault].
      pose proof (NoFault_member_to_offset _ ltac:(eassumption)).
      pose proof (NoFault_constructMutatedMember (lv_symbol lvalue) member
                    _ ltac:(eassumption) IHe2).
      nofault.
    + (* compound multiplication *)
      destruct e1; try discriminate. cbn [getSymbol deref].
      apply NoFault_bind_ret. nofault.
  - (* unary *)
    unfold unary_known in *.
    destruct (is_incr_decr op) eqn:Hop.
    + cbn [negb orb] in *. split_wf.
      destruct e; try discriminate. cbn [as_lvalue].
      apply NoFault_bind_ret.
      cbn [well_formed member_of getIType] in *. unfold member_known in *.
      destruct (lv_member lvalue) as [member |].
      * pose proof (NoFault_member_to_offset _ ltac:(eassumption)).
        rewrite orb_true_r. cbn [is_some]. nofault.
      * cbn [is_some] in *. rewrite orb_false_r in *.
        destruct result_needed; cbn [orb] in *; [nofault |].
        destruct (getOneValue ty0) as [one |] eqn:Hone; [| discriminate].
        pose proof (NoFault_unit _ _ Hone). cbn [deref]. nofault.
    + destruct (unary_helper op); [nofault | discriminate].
Qed.

Lemma NoFault_visit_initializer initializer sym :
  initializer_well_formed initializer sym = true ->
  NoFault (visit_initializer H initializer sym).
Proof.
  unfold initializer_well_formed, visit_initializer.
  destruct initializer as [e |]; [apply NoFault_visit_expr |].
  destruct (getDefaultValue (sym_itype sym)) as [default |] eqn:Hd;
    [| discriminate].
  intros _. cbn [deref]. apply NoFault_bind_ret. now apply (NoFault_default _ _ Hd).
Qed.

Lemma NoFault_clauses (clauses : list LSLExpression) :
  forallb well_formed clauses = true ->
  NoFault (forEach (fun clause => doTabs ;; visit_expr H clause ;; write nl)
             clauses).
Proof.
  intros Hc. apply NoFault_forEach.
  apply (list_all_of_forallb_plain well_formed); [| exact Hc].
  intros e He. pose proof (NoFault_visit_expr e He). nofault.
Qed.

Lemma NoFault_visit_stmt (s : LSLStatement) :
  statement_well_formed s = true -> NoFault (visit_stmt H s).
Proof.
  induction s; cbn [statement_well_formed]; intros Hc; split_wf;
    repeat match goal with
           | He : well_formed _ = true |- _ => apply NoFault_visit_expr in He
           | He : forallb well_formed _ = true |- _ =>
               apply NoFault_clauses in He
           | He : initializer_well_formed _ _ = true |- _ =>
               apply NoFault_visit_initializer in He
           end;
    cbn [visit_stmt]; try solve [nofault].
  - destruct false_branch as [false_branch |]; [| nofault].
    match goal with
    | Hb : option_all _ _ (Some _) |- _ =>
        inversion Hb as [b IHb |]; subst
    end.
    pose proof (IHb ltac:(assumption)). nofault.
  - destruct expr as [expr |]; [| nofault].
    apply NoFault_visit_expr in Hc. nofault.
Qed.

Lemma NoFault_visit_arguments (arguments : list LSLIdentifier) :
  NoFault (visit_arguments arguments).
Proof.
  unfold visit_arguments. apply NoFault_forEach, list_all_of_forall.
  intros arg. nofault.
Qed.

Lemma NoFault_visit_script (script : LSLScript) :
  script_well_formed script = true -> NoFault (visit_script H script).
Proof.
  unfold script_well_formed. intros Hc. split_wf.
  pose proof NoFault_visit_arguments.
  unfold visit_script.
  nofault.
  - apply list_all_of_forall. intros [glob_var | glob_func]; nofault.
  - apply (list_all_of_forallb_plain global_well_formed); [| eassumption].
    intros [glob_var | glob_func] Hg; [| nofault].
    apply NoFault_visit_initializer in Hg.
    unfold visit_global_variable. nofault.
  - apply (list_all_of_forallb_plain global_well_formed); [| eassumption].
    intros [glob_var | glob_func] Hg; [nofault |].
    apply NoFault_visit_stmt in Hg.
    unfold visit_global_function. nofault.
  - match goal with
    | Hs : forallb _ (getStates script) = true |- _ =>
        apply (list_all_of_forallb_plain _ _ _ (fun st Hst => Hst)) in Hs;
        induction Hs as [| state Hst states Hsts IH]; constructor; auto
    end.
    unfold visit_state. apply NoFault_forEach.
    apply (list_all_of_forallb_plain
             (fun event_handler =>
                statement_well_formed (eh_statements event_handler)));
      [| exact Hst].
    intros event_handler Heh. apply NoFault_visit_stmt in Heh.
    unfold visit_event_handler. nofault.
Qed.

End WellFormed.

(** X12.  Generation succeeds on every script that keeps the front end's
    contract: the visit ends without a fault and yields a text. *)
Theorem well_formed_script_generates (H : Host) (script : LSLScript)
    (t : nat) :
  script_well_formed script = true ->
  exists text, emit (visit_script H script) t = inr text.
Proof.
  intros Hc. unfold emit.
  destruct (NoFault_visit_script H script Hc {| mStr := ""; mTabs := t |})
    as (a & v' & ->).
  now exists (mStr v').
Qed.

Lemma well_formed_script_generates_witness :
  script_well_formed two_globals_script = true
  /\ exists text, emit (visit_script debug_host two_globals_script) 0 = inr text.
Proof.
  split; [reflexivity |].
  exact (well_formed_script_generates debug_host two_globals_script 0%nat
           eq_refl).
Defined.

(** ** The floats [writeFloat] can print *)

Lemma round_half_even_integral (q : Q) (n : Z) :
  q == inject_Z n -> round_half_even q = n.
Proof.
  intros Hq. unfold round_half_even.
  assert (Hf : Qfloor q = n) by (rewrite Hq; apply Qfloor_Z).
  rewrite Hf.
  assert (Hc : Qcompare (q - inject_Z n) (1 # 2) = Lt).
  { rewrite Hq. unfold Qcompare, Qminus, Qplus, Qopp, inject_Z.
    cbn [Qnum Qden]. apply Z.compare_lt_iff. lia. }
  now rewrite Hc.
Qed.

Lemma units_finite (f : float) :
  biased_exponent f <> 255 ->
  to_double f = DNum (Qmake (units f) (2 ^ 149)).
Proof.
  intros He. unfold to_double.
  destruct (Z.eqb_spec (biased_exponent f) 255); [contradiction | reflexivity].
Qed.

Lemma units_magnitude (f : float) :
  0 <= f < 2 ^ 32 ->
  exists m, units f = (if signbit f then - m else m)
            /\ m = (if biased_exponent f =? 0 then fraction f
                    else (2 ^ 23 + fraction f) * 2 ^ (biased_exponent f - 1))
            /\ 0 <= m.
Proof.
  intros Hf. destruct (float_fields f Hf) as (_ & Hfr & He).
  eexists. split; [reflexivity |]. split; [reflexivity |].
  destruct (biased_exponent f =? 0); [lia |].
  apply Z.mul_nonneg_nonneg; [lia | apply Z.pow_nonneg; lia].
Qed.

Lemma small_float_printable (f : float) :
  0 <= f < 2 ^ 32 -> biased_exponent f < 190 -> float_printable f = true.
Proof.
  intros Hf He. unfold float_printable.
  destruct (double_eq (nearbyint (to_double f)) (to_double f)) eqn:Ht;
    [| reflexivity].
  cbn [negb orb].
  destruct (integral_test_true f Ht) as [[s Hs] | [q [Hq Hr]]].
  - rewrite units_finite in Hs by lia. discriminate Hs.
  - rewrite (to_int64_integral f q _ Hq Hr).
    rewrite units_finite in Hq by lia. injection Hq as <-.
    unfold Qeq in Hr. simpl in Hr. rewrite Z.mul_1_r in Hr.
    destruct (units_magnitude f Hf) as (m & Hu & Hm & Hm0).
    destruct (float_fields f Hf) as (_ & Hfr & Hex).
    assert (Hb : m < 2 ^ 212).
    { rewrite Hm. destruct (Z.eqb_spec (biased_exponent f) 0); [lia |].
      assert (2 ^ (biased_exponent f - 1) <= 2 ^ 188)
        by (apply Z.pow_le_mono_r; lia).
      assert (0 < 2 ^ (biased_exponent f - 1))
        by (apply Z.pow_pos_nonneg; lia).
      change (2 ^ 212) with (2 ^ 24 * 2 ^ 188).
      change (2 ^ 23) with 8388608 in *. change (2 ^ 24) with 16777216.
      nia. }
    set (r := round_half_even (units f # 2 ^ 149)) in *.
    change (Z.pos (2 ^ 149)) with (2 ^ 149) in Hr.
    assert (Hrange : INT64_MIN <= r <= INT64_MAX).
    { unfold INT64_MIN, INT64_MAX.
      change (2 ^ 212) with (2 ^ 63 * 2 ^ 149) in Hb.
      destruct (signbit f); nia. }
    destruct (Z.leb_spec INT64_MIN r), (Z.leb_spec r INT64_MAX);
      try lia; reflexivity.
Qed.

Lemma not_beyond_printable (f : float) :
  0 <= f < 2 ^ 32 -> beyond_int64 f = false -> float_printable f = true.
Proof.
  intros Hf Hb. unfold beyond_int64 in Hb.
  destruct (Z.leb_spec 190 (biased_exponent f)) as [He | He];
    [| now apply small_float_printable].
  cbn [andb] in Hb.
  destruct (Z.eqb_spec f 3741319168) as [-> | Hn]; [reflexivity |].
  rewrite andb_true_r in Hb. apply negb_false_iff in Hb.
  apply andb_prop in Hb. destruct Hb as [H255 Hfr].
  unfold float_printable, to_double. rewrite H255.
  apply negb_true_iff in Hfr. rewrite Hfr. reflexivity.
Qed.

Lemma integer_value_some (f : float) (n : Z) :
  integer_value f = Some n ->
  to_double f = DNum (Qmake (units f) (2 ^ 149))
  /\ Qmake (units f) (2 ^ 149) == inject_Z n.
Proof.
  unfold integer_value. intros Hi.
  destruct (Z.eqb_spec (biased_exponent f) 255) as [E | E];
    [discriminate Hi |].
  destruct (Z.eqb_spec (units f mod 2 ^ 149) 0) as [Hm | Hm];
    [| discriminate Hi].
  injection Hi as <-. split; [now apply units_finite |].
  unfold Qeq. cbn [Qnum Qden inject_Z]. rewrite Z.mul_1_r.
  change (Z.pos (2 ^ 149)) with (2 ^ 149).
  pose proof (Z.div_mod (units f) (2 ^ 149)) as Hd. lia.
Qed.

Lemma integer_value_none (f : float) :
  integer_value f = None ->
  biased_exponent f = 255
  \/ double_eq (nearbyint (to_double f)) (to_double f) = false.
Proof.
  unfold integer_value. intros Hi.
  destruct (Z.eqb_spec (biased_exponent f) 255) as [E | E]; [now left |].
  destruct (Z.eqb_spec (units f mod 2 ^ 149) 0) as [Hm | Hm];
    [discriminate Hi |].
  right.
  destruct (double_eq (nearbyint (to_double f)) (to_double f)) eqn:Ht;
    [| reflexivity].
  exfalso. apply Hm.
  destruct (integral_test_true f Ht) as [[s Hs] | [q [Hq Hr]]].
  - rewrite units_finite in Hs by assumption. discriminate Hs.
  - rewrite units_finite in Hq by assumption. injection Hq as <-.
    unfold Qeq in Hr. cbn [Qnum Qden inject_Z] in Hr.
    rewrite Z.mul_1_r in Hr. change (Z.pos (2 ^ 149)) with (2 ^ 149) in Hr.
    rewrite Hr. apply Z.mod_mul. discriminate.
Qed.

(** X13.  Every float constant other than the integral ones beyond
    [int64_t] is written exactly.  A float whose value is an integer is
    written as that integer in decimal followed by [.0], and as [-0.0] when it
    is the pattern of negative zero; the digits read back as the integer.
    Every other pattern, a NaN included, is written as the call of
    [bin2float] on the hint and the eight hex digits that read back as the
    pattern. *)
Theorem float_constant_exact (H : Host) (f : float) (t : nat) :
  0 <= f < 2 ^ 32 ->
  beyond_int64 f = false ->
  match integer_value f with
  | Some n =>
      emit (writeFloat H f) t
      = inr (if f =? 2 ^ 31 then "-0.0" else dec n ++ ".0")
      /\ undec (dec n) = Some n
      /\ exists q, to_double f = DNum q /\ q == inject_Z n
  | None =>
      emit (writeFloat H f) t
      = inr ("bin2float('" ++ to_string H f ++ "', '"
             ++ hex_encoding (big_endian H) f ++ "')")
      /\ bin2float_bits (big_endian H) (hex_encoding (big_endian H) f)
         = Some f
  end.
Proof.
  intros Hf Hb. pose proof (not_beyond_printable f Hf Hb) as Hp.
  unfold float_printable in Hp.
  destruct (integer_value f) as [n |] eqn:Hi.
  - destruct (integer_value_some f n Hi) as [Hd Hq].
    assert (Ht : double_eq (nearbyint (to_double f)) (to_double f) = true).
    { rewrite Hd. cbn [nearbyint double_eq].
      rewrite (round_half_even_integral _ n Hq).
      apply Qeq_bool_iff. now symmetry. }
    rewrite Ht in Hp. cbn [negb orb] in Hp.
    assert (Hn : to_int64 f = Some n).
    { rewrite (to_int64_integral f _ n Hd Hq) in *.
      destruct (_ && _); [reflexivity | discriminate Hp]. }
    destruct (writeFloat_integral H f n t Ht Hn) as (He & Hu & Hv).
    split; [| split; assumption].
    rewrite He. f_equal.
    destruct (double_eq (to_double f) (DNum 0) && signbit f) eqn:Hz.
    + apply (negative_zero_pattern f Hf) in Hz. subst f. reflexivity.
    + destruct (Z.eqb_spec f (2 ^ 31)) as [E | E]; [| reflexivity].
      apply (negative_zero_pattern f Hf) in E. congruence.
  - apply writeFloat_bit_pattern; [exact Hf |].
    destruct (integer_value_none f Hi) as [E255 | Ht]; [| exact Ht].
    unfold beyond_int64 in Hb. unfold to_double. rewrite E255 in *.
    cbn in Hb. cbn [Z.eqb Pos.eqb].
    destruct (Z.eqb_spec (fraction f) 0) as [E0 | E0]; [| reflexivity].
    cbn in Hb. apply negb_false_iff, Z.eqb_eq in Hb. subst f.
    discriminate E255.
Qed.

Lemma float_constant_exact_witness :
  ((0 <= 1073741824 < 2 ^ 32 /\ beyond_int64 1073741824 = false)
   /\ integer_value 1073741824 = Some 2
   /\ emit (writeFloat debug_host 1073741824) 0 = inr "2.0")
  /\ ((0 <= 1069547520 < 2 ^ 32 /\ beyond_int64 1069547520 = false)
      /\ integer_value 1069547520 = None
      /\ emit (writeFloat debug_host 1069547520) 0
         = inr "bin2float('?', '0000c03f')").
Proof.
  split.
  - split; [split; [lia | reflexivity] |]. split; [reflexivity |].
    exact (proj1 (float_constant_exact debug_host 1073741824 0%nat
                    ltac:(lia) eq_refl)).
  - split; [split; [lia | reflexivity] |]. split; [reflexivity |].
    exact (proj1 (float_constant_exact debug_host 1069547520 0%nat
                    ltac:(lia) eq_refl)).
Defined.

Lemma beyond_int64_value (f : float) :
  0 <= f < 2 ^ 32 -> beyond_int64 f = true -> biased_exponent f <> 255 ->
  exists n, Qmake (units f) (2 ^ 149) == inject_Z n
            /\ (n < INT64_MIN \/ INT64_MAX < n).
Proof.
  intros Hf Hb H255. unfold beyond_int64 in Hb.
  apply andb_prop in Hb. destruct Hb as [Hb Hn].
  apply andb_prop in Hb. destruct Hb as [He _].
  apply Z.leb_le in He. apply negb_true_iff, Z.eqb_neq in Hn.
  destruct (float_fields f Hf) as (Hd & Hfr & Hex).
  set (e := biased_exponent f) in *. set (fr := fraction f) in *.
  assert (Hpow : 2 ^ (e - 1) = 2 ^ (e - 150) * 2 ^ 149).
  { rewrite <- Z.pow_add_r by lia. f_equal. lia. }
  assert (Hlow : 2 ^ 40 <= 2 ^ (e - 150)) by (apply Z.pow_le_mono_r; lia).
  exists ((if signbit f then -1 else 1) * ((2 ^ 23 + fr) * 2 ^ (e - 150))).
  split.
  - unfold Qeq. cbn [Qnum Qden inject_Z]. rewrite Z.mul_1_r.
    change (Z.pos (2 ^ 149)) with (2 ^ 149).
    unfold units. fold e. fold fr.
    destruct (Z.eqb_spec e 0); [lia |]. rewrite Hpow.
    destruct (signbit f); ring.
  - unfold INT64_MIN, INT64_MAX.
    change (2 ^ 23) with 8388608 in *. change (2 ^ 40) with 1099511627776 in *.
    change (2 ^ 63) with 9223372036854775808.
    change (2 ^ 31) with 2147483648 in *.
    destruct (signbit f) eqn:Hs; [| right; nia].
    left.
    destruct (Z.eq_dec e 190) as [E190 | E190].
    + assert (fr <> 0) by (intros E0; apply Hn; rewrite Hd, E0, E190; reflexivity).
      rewrite E190 in *. change (2 ^ (190 - 150)) with 1099511627776 in *. lia.
    + assert (2 ^ 41 <= 2 ^ (e - 150)) by (apply Z.pow_le_mono_r; lia).
      change (2 ^ 41) with 2199023255552 in *. nia.
Qed.

(** X14.  On an integral float beyond [int64_t] (magnitude 2^63 or more
    other than -2^63, and the infinities) [writeFloat] takes the decimal path
    and converts out of range: the conversion is undefined and no text is
    guaranteed. *)
Theorem float_constant_beyond_int64_undefined (H : Host) (f : float)
    (t : nat) :
  0 <= f < 2 ^ 32 ->
  beyond_int64 f = true ->
  emit (writeFloat H f) t = inl UndefinedConversion.
Proof.
  intros Hf Hb.
  destruct (Z.eq_dec (biased_exponent f) 255) as [E255 | E255].
  - (* an infinity *)
    unfold beyond_int64 in Hb. rewrite E255 in Hb. cbn in Hb.
    destruct (Z.eqb_spec (fraction f) 0) as [E0 | E0]; [| discriminate Hb].
    apply writeFloat_integral_out_of_range.
    + unfold to_double. rewrite E255, E0. cbn. apply eqb_reflx.
    + unfold to_int64, to_double. rewrite E255, E0. reflexivity.
  - destruct (beyond_int64_value f Hf Hb E255) as (n & Hq & Hr).
    pose proof (units_finite f E255) as Hd.
    apply writeFloat_integral_out_of_range.
    + rewrite Hd. cbn [nearbyint double_eq].
      rewrite (round_half_even_integral _ n Hq).
      apply Qeq_bool_iff. now symmetry.
    + rewrite (to_int64_integral f _ n Hd Hq).
      destruct (Z.leb_spec INT64_MIN n), (Z.leb_spec n INT64_MAX);
        try reflexivity; lia.
Qed.

Lemma float_constant_beyond_int64_undefined_witness :
  (0 <= 2139095040 < 2 ^ 32 /\ beyond_int64 2139095040 = true)
  /\ emit (writeFloat debug_host 2139095040) 0 = inl UndefinedConversion.
Proof.
  split; [split; [lia | reflexivity] |].
  exact (float_constant_beyond_int64_undefined debug_host 2139095040 0%nat
           ltac:(lia) eq_refl).
Defined.

(** ** The driver, case by case *)

(** What [main] leaves behind when it stops before the front end runs or
    skips generation: a status, messages, and no text anywhere. *)
Lemma main_three_arguments (H : Host) (w : World) (argv : list string) :
  List.length argv <> 3%nat ->
  main H w argv
  = inr {| status := 1;
           err := ["lummao <lsl_script> <out_py>" ++ nl];
           out := None; file := None; py_code := None |}.
Proof.
  intros Hl. unfold main.
  destruct argv as [| a0 [| a1 [| a2 [| a3 rest]]]]; try reflexivity.
  now contradiction Hl.
Qed.

(** X15.  Unless it is given exactly two arguments after its own name,
    [main] returns 1 after the usage line on [stderr]; it opens nothing, the
    front end does not run and nothing is generated, whatever the world. *)
Theorem main_usage (H : Host) (w : World) (argv : list string) :
  List.length argv <> 3%nat ->
  exists o,
    main H w argv = inr o
    /\ status o = 1
    /\ err o = ["lummao <lsl_script> <out_py>" ++ nl]
    /\ out o = None /\ file o = None /\ py_code o = None.
Proof.
  intros Hl. rewrite (main_three_arguments H w argv Hl).
  eexists. split; [reflexivity |]. repeat split.
Qed.

Lemma main_usage_witness :
  List.length ["lummao"; "in.lsl"] <> 3%nat
  /\ exit_status
       (main debug_host (world_of clean_front_end true true)
          ["lummao"; "in.lsl"])
     = Some 1.
Proof.
  assert (Hl : List.length ["lummao"; "in.lsl"] <> 3%nat) by discriminate.
  split; [exact Hl |].
  destruct (main_usage debug_host (world_of clean_front_end true true)
              ["lummao"; "in.lsl"] Hl) as (o & -> & Hs & _).
  simpl. now rewrite Hs.
Defined.

(** X16.  When the input path is not the marker [-] and cannot be opened,
    [main] returns 1 after a message that names the path; the front end does
    not run and nothing is generated or written. *)
Theorem main_unopenable_input (H : Host) (w : World)
    (prog input output : string) :
  input <> "-" -> fopen_ok w input = false ->
  main H w [prog; input; output]
  = inr {| status := 1;
           err := ["couldn't open " ++ input ++ nl];
           out := None; file := None; py_code := None |}.
Proof.
  intros Hi Ho. unfold main.
  destruct (String.eqb_spec input "-") as [E | _]; [contradiction |].
  rewrite Ho. reflexivity.
Qed.

Lemma main_unopenable_input_witness :
  ("missing.lsl" <> "-" /\ fopen_ok unreadable_world "missing.lsl" = false)
  /\ exit_status
       (main debug_host unreadable_world ["lummao"; "missing.lsl"; "out.py"])
     = Some 1.
Proof.
  split; [split; [discriminate | reflexivity] |].
  rewrite (main_unopenable_input debug_host unreadable_world
             "lummao" "missing.lsl" "out.py" ltac:(discriminate) eq_refl).
  reflexivity.
Defined.

Lemma main_input_opens (input : string) (w : World) :
  input = "-" \/ fopen_ok w input = true ->
  negb (input =? "-")%string && negb (fopen_ok w input) = false.
Proof. intros [-> | ->]; [reflexivity | apply andb_false_r]. Qed.

(** X17.  When the front end has logged an error, generation is skipped:
    the visitor does not run, nothing goes to [stdout] or to a file, only the
    logger's report is on [stderr], and [main] returns the error count,
    which is not zero.  This holds also when the parser gave no script. *)
Theorem main_errors_skip_generation (H : Host) (w : World)
    (prog input output : string) :
  input = "-" \/ fopen_ok w input = true ->
  let fe := front_end w (if (input =? "-")%string then None else Some input) in
  getErrors fe <> 0%nat ->
  main H w [prog; input; output]
  = inr {| status := Z.of_nat (getErrors fe);
           err := [fe_report fe];
           out := None; file := None; py_code := None |}
  /\ Z.of_nat (getErrors fe) <> 0.
Proof.
  intros Hin fe He. subst fe. split; [| lia].
  unfold main. rewrite (main_input_opens input w Hin).
  destruct (Nat.eqb_spec
              (getErrors (front_end w (if (input =? "-")%string
                                       then None else Some input))) 0)
    as [E | _]; [contradiction | reflexivity].
Qed.

Lemma main_errors_skip_generation_witness :
  ("in.lsl" = "-"
   \/ fopen_ok (world_of one_error_front_end true true) "in.lsl" = true)
  /\ getErrors one_error_front_end <> 0%nat
  /\ exit_status
       (main debug_host (world_of one_error_front_end true true)
          ["lummao"; "in.lsl"; "out.py"])
     = Some 1.
Proof.
  split; [right; reflexivity |]. split; [discriminate |].
  rewrite (proj1 (main_errors_skip_generation debug_host
                    (world_of one_error_front_end true true)
                    "lummao" "in.lsl" "out.py" (or_intror eq_refl)
                    ltac:(discriminate))).
  reflexivity.
Defined.

(** X18.  With no error and a script, the text goes to exactly one
    destination: to [stdout] when the output path is the marker [-], in
    which case no file is opened, and otherwise to the file of that path
    when its stream opens; [main] then returns 0. *)
Theorem main_destination (H : Host) (w : World) (prog input output : string)
    (script : LSLScript) (code : string) :
  input = "-" \/ fopen_ok w input = true ->
  let fe := front_end w (if (input =? "-")%string then None else Some input) in
  getErrors fe = 0%nat ->
  fe_script fe = Some script ->
  emit (visit_script H script) 0 = inr code ->
  output = "-" \/ ofstream_good w output = true ->
  main H w [prog; input; output]
  = inr {| status := 0;
           err := [fe_report fe];
           out := if (output =? "-")%string then Some code else None;
           file := if (output =? "-")%string then None
                   else Some (output, code);
           py_code := Some code |}.
Proof.
  intros Hin fe He Hs Hc Hout. subst fe.
  unfold main. rewrite (main_input_opens input w Hin), He, Hs.
  cbn [Nat.eqb]. unfold emit in Hc.
  destruct (visit_script H script {| mStr := ""; mTabs := 0 |})
    as [f | [[] v]]; [discriminate Hc |].
  injection Hc as ->.
  destruct (String.eqb_spec output "-") as [E | E]; [reflexivity |].
  destruct Hout as [E' | ->]; [contradiction | reflexivity].
Qed.

Lemma main_destination_witness :
  (("in.lsl" = "-"
    \/ fopen_ok (world_of clean_front_end true true) "in.lsl" = true)
   /\ getErrors clean_front_end = 0%nat
   /\ ("-" = "-" \/ ofstream_good (world_of clean_front_end true true) "-" = true))
  /\ exists code,
       main debug_host (world_of clean_front_end true true)
         ["lummao"; "in.lsl"; "-"]
       = inr {| status := 0; err := [""]; out := Some code; file := None;
                py_code := Some code |}.
Proof.
  split; [split; [right; reflexivity | split; [reflexivity | left; reflexivity]] |].
  destruct (emit (visit_script debug_host minimal_script) 0) as [f | code]
    eqn:Hc; [vm_compute in Hc; discriminate Hc |].
  exists code.
  exact (main_destination debug_host (world_of clean_front_end true true)
           "lummao" "in.lsl" "-" minimal_script code (or_intror eq_refl)
           eq_refl eq_refl Hc (or_introl eq_refl)).
Defined.

(** X19.  [main] returns a status, rather than stopping on a fault, in every
    world where a script that reaches generation (the front end gives it with
    no error in the log) keeps the front end's contract and a missing script
    comes with an error in the log; what the front end gives beside logged
    errors is free. *)
Theorem main_returns (H : Host) (w : World) (argv : list string) :
  (forall yyin script,
     getErrors (front_end w yyin) = 0%nat ->
     fe_script (front_end w yyin) = Some script ->
     script_well_formed script = true) ->
  (forall yyin,
     fe_script (front_end w yyin) = None ->
     getErrors (front_end w yyin) <> 0%nat) ->
  exists o, main H w argv = inr o.
Proof.
  intros Hwf Hnull. unfold main.
  destruct argv as [| a0 [| input [| output [| a3 rest]]]];
    try (eexists; reflexivity).
  destruct (negb (input =? "-")%string && negb (fopen_ok w input));
    [eexists; reflexivity |].
  set (fe := front_end w (if (input =? "-")%string then None else Some input)).
  destruct (Nat.eqb_spec (getErrors fe) 0) as [He | He];
    [| eexists; reflexivity].
  destruct (fe_script fe) as [script |] eqn:Hs.
  - destruct (NoFault_visit_script H script (Hwf _ _ He Hs)
                {| mStr := ""; mTabs := 0 |}) as ([] & v & ->).
    destruct (output =? "-")%string; [eexists; reflexivity |].
    destruct (ofstream_good w output); eexists; reflexivity.
  - now contradiction (Hnull _ Hs).
Qed.

Lemma main_returns_witness :
  ((forall yyin script,
      getErrors (front_end (world_of clean_front_end true true) yyin) = 0%nat ->
      fe_script (front_end (world_of clean_front_end true true) yyin)
      = Some script ->
      script_well_formed script = true)
   /\ (forall yyin,
         fe_script (front_end (world_of clean_front_end true true) yyin) = None ->
         getErrors (front_end (world_of clean_front_end true true) yyin)
         <> 0%nat))
  /\ exists o,
       main debug_host (world_of clean_front_end true true)
         ["lummao"; "in.lsl"; "out.py"] = inr o.
Proof.
  assert (Hwf : forall yyin script,
             getErrors (front_end (world_of clean_front_end true true) yyin)
             = 0%nat ->
             fe_script (front_end (world_of clean_front_end true true) yyin)
             = Some script ->
             script_well_formed script = true)
    by (intros yyin script _ [= <-]; reflexivity).
  assert (Hnull : forall yyin,
             fe_script (front_end (world_of clean_front_end true true) yyin)
             = None ->
             getErrors (front_end (world_of clean_front_end true true) yyin)
             <> 0%nat)
    by (intros yyin; discriminate).
  split; [split; assumption |].
  exact (main_returns debug_host (world_of clean_front_end true true)
           ["lummao"; "in.lsl"; "out.py"] Hwf Hnull).
Defined.

(** X20.  When the parser gives no script and has logged no error, [main]
    still reaches generation and visits the null script: it stops on the
    null pointer, after the report and before anything is written. *)
Theorem main_null_script (H : Host) (w : World) (prog input output : string) :
  input = "-" \/ fopen_ok w input = true ->
  let fe := front_end w (if (input =? "-")%string then None else Some input) in
  fe_script fe = None ->
  fe_parse_errors fe = 0%nat ->
  main H w [prog; input; output] = inl NullPointer.
Proof.
  intros Hin fe Hs Hp. subst fe. unfold main.
  rewrite (main_input_opens input w Hin). unfold getErrors.
  rewrite Hs, Hp. reflexivity.
Qed.

Lemma main_null_script_witness :
  (("in.lsl" = "-"
    \/ fopen_ok (world_of silent_null_front_end true true) "in.lsl" = true)
   /\ fe_script silent_null_front_end = None
   /\ fe_parse_errors silent_null_front_end = 0%nat)
  /\ main debug_host (world_of silent_null_front_end true true)
       ["lummao"; "in.lsl"; "out.py"] = inl NullPointer.
Proof.
  split; [split; [right; reflexivity | split; reflexivity] |].
  exact (main_null_script debug_host (world_of silent_null_front_end true true)
           "lummao" "in.lsl" "out.py" (or_intror eq_refl) eq_refl eq_refl).
Defined.

(** ** Blocks, branches and methods *)

Lemma cat_all_app {A : Type} (f : A -> Fault + string) (l l' : list A) :
  cat_all f (l ++ l') = cat_all f l +++ cat_all f l'.
Proof.
  induction l as [| x l IH]; cbn [app cat_all];
    [now rewrite cat_nil_l | now rewrite IH, cat_assoc].
Qed.

(** X21.  A compound statement writes its children one after the other: a
    block of one statement is that statement, a block made of two non-empty
    runs is the first run followed by the second, and only the empty block
    writes [pass]. *)
Theorem compound_statement_composition (H : Host) (t : nat) :
  emit (visit_stmt H (LSLCompoundStatement [])) t
  = inr (indent t ++ "pass" ++ nl)
  /\ (forall s,
        emit (visit_stmt H (LSLCompoundStatement [s])) t
        = emit (visit_stmt H s) t)
  /\ (forall a b,
        a <> [] -> b <> [] ->
        emit (visit_stmt H (LSLCompoundStatement (a ++ b))) t
        = emit (visit_stmt H (LSLCompoundStatement a)) t
          +++ emit (visit_stmt H (LSLCompoundStatement b)) t).
Proof.
  split; [| split].
  - cbn [visit_stmt]. emit_steps. reflexivity.
  - intros s. cbn [visit_stmt]. rewrite emit_forEach by (intros; writer).
    cbn [cat_all]. apply cat_nil_r.
  - intros a b Ha Hb.
    destruct a as [| a0 a]; [contradiction |].
    destruct b as [| b0 b]; [contradiction |].
    cbn [visit_stmt app]. rewrite !emit_forEach by (intros; writer).
    exact (cat_all_app _ (a0 :: a) (b0 :: b)).
Qed.

Lemma compound_statement_composition_witness :
  ([LSLNopStatement] <> [] /\ [LSLReturnStatement None] <> [])
  /\ emit (visit_stmt debug_host
             (LSLCompoundStatement ([LSLNopStatement]
                                    ++ [LSLReturnStatement None]))) 0
     = inr ("pass" ++ nl ++ "return" ++ nl).
Proof.
  split; [split; discriminate |].
  exact (eq_trans
           (proj2 (proj2 (compound_statement_composition debug_host 0%nat))
              [LSLNopStatement] [LSLReturnStatement None]
              ltac:(discriminate) ltac:(discriminate))
           eq_refl).
Defined.

(** X22.  A conditional with an else branch is the conditional without it,
    followed by the line [else:] at the same depth and the else branch one
    level deeper. *)
Theorem if_statement_else_extends (H : Host) (check : LSLExpression)
    (true_branch false_branch : LSLStatement) (t : nat) :
  emit (visit_stmt H (LSLIfStatement check true_branch (Some false_branch))) t
  = emit (visit_stmt H (LSLIfStatement check true_branch None)) t
    +++ inr (indent t ++ "else:" ++ nl)
    +++ emit (visit_stmt H false_branch) (t + 1)
  /\ emit (visit_stmt H (LSLIfStatement check true_branch None)) t
     = inr (indent t ++ "if ") +++ emit (visit_expr H check) t
       +++ inr (":" ++ nl) +++ emit (visit_stmt H true_branch) (t + 1).
Proof.
  split; cbn [visit_stmt]; emit_steps; results_eq.
Qed.

(** X23.  A local declared without initializer and a global declared without
    initializer get the same value text, the default of the type of the
    symbol; with an initializer both get the text of the initializer.  The
    local is written as [name: type = value], the global as
    [self.name = value]. *)
Theorem declaration_and_global_share_value (H : Host) (sym : LSLSymbol)
    (id : LSLIdentifier) (initializer : option LSLExpression) (t : nat) :
  let value :=
    initial_value_text H
      {| gv_identifier := id; gv_symbol := sym;
         gv_initializer := initializer |} t in
  emit (visit_stmt H (LSLDeclaration sym initializer)) t
  = inr (indent t ++ sym_name sym ++ ": " ++ PY_TYPE_NAMES (sym_itype sym)
         ++ " = ")
    +++ value +++ inr nl
  /\ emit (visit_global_variable H
             {| gv_identifier := id; gv_symbol := sym;
                gv_initializer := initializer |}) t
     = inr (indent t ++ "self." ++ sym_name sym ++ " = ")
       +++ value +++ inr nl.
Proof.
  intros value. subst value. split.
  - cbn [visit_stmt]. emit_steps.
    pose proof (emit_visit_initializer H
                  {| gv_identifier := id; gv_symbol := sym;
                     gv_initializer := initializer |} t) as Hv.
    cbn [gv_initializer gv_symbol] in Hv. rewrite Hv.
    results_eq.
  - apply emit_visit_global_variable.
Qed.

Lemma Writer_ext (m m' : M unit) :
  Writer m -> Writer m' -> (forall t, emit m t = emit m' t) ->
  forall v, m v = m' v.
Proof.
  intros Hm Hm' He v. rewrite (Hm v), (Hm' v).
  specialize (He (mTabs v)). unfold emit in He.
  destruct (m {| mStr := ""; mTabs := mTabs v |}) as [f | [[] w]],
    (m' {| mStr := ""; mTabs := mTabs v |}) as [f' | [[] w']];
    try discriminate He; now injection He as ->.
Qed.

(** X24.  An event handler is written exactly as the global function with
    the same arguments, return type and body whose name is the letter [e],
    the name of the state and the name of the event: from every state of the
    visitor the two visits give the same result. *)
Theorem event_handler_as_function (H : Host) (state_sym : LSLSymbol)
    (event_handler : LSLEventHandler) (v : PythonVisitor) :
  visit_event_handler H state_sym event_handler v
  = visit_global_function H (handler_as_function state_sym event_handler) v.
Proof.
  apply Writer_ext; [writer | writer |].
  intros t. unfold visit_event_handler, visit_global_function,
    handler_as_function.
  cbn [gf_identifier gf_arguments gf_statements id_name id_itype].
  emit_steps. results_eq.
Qed.
